(** * Front-end widgets of the OpenEduCat customisations

    A shallow embedding of the JavaScript widgets of the repository:

    - [InlineCharField]: openeducat_core/static/src/js/field_inline_char.js
    - [AutoMany2XAutocomplete], [InlineMany2OneField]:
      openeducat_core/static/src/js/inline_many2one.js
    - [PageList]: openeducat_fees/static/src/js/page_list.js
    - [PageUrlField], [FeesTermsDisplay]: the fees field widgets

    JavaScript strings are [string]s (one [ascii] per code unit, which
    covers the code units U+0000 to U+00FF), DOM integers ([offsetWidth],
    [scrollWidth]) are [Z], objects used as maps are [gmap]s, and a
    reference that may be [null] or [undefined] is an [option]. The host
    framework is not modelled: what the widgets need of it (the layout of
    the browser, the methods of the classes they extend, the order in which
    it calls the handlers) is a parameter or is said where it is used. *)

From stdpp Require Import gmap strings list fin_maps.
From Stdlib Require Import ZArith Ascii.

Local Open Scope Z_scope.

(** ** JavaScript values and truthiness *)

Module Js.

Inductive jsval :=
| JUndefined
| JNull
| JBool (b : bool)
| JNum (n : Z)
| JStr (s : string).

(** A string is truthy unless it is empty. *)
Definition truthy_str (s : string) : bool :=
  match s with
  | EmptyString => false
  | String _ _ => true
  end.

(** ToBoolean. Numbers are the integers here, so [0] is the only falsy
    one. *)
Definition truthy (v : jsval) : bool :=
  match v with
  | JUndefined | JNull => false
  | JBool b => b
  | JNum n => negb (n =? 0)
  | JStr s => truthy_str s
  end.

(** [a || b] on values. *)
Definition or (a b : jsval) : jsval := if truthy a then a else b.

(** [a || b] where [a] is a string or [null]/[undefined] and [b] a
    string. *)
Definition or_str (a : option string) (b : string) : string :=
  match a with
  | Some s => if truthy_str s then s else b
  | None => b
  end.

(** [a || b] where both may be [null]/[undefined]. *)
Definition or_opt (a b : option string) : option string :=
  match a with
  | Some s => if truthy_str s then a else b
  | None => b
  end.

(** How a method body completes: normally, or by raising a [TypeError] (a
    property access on [null] or [undefined]). *)
Inductive completion := Normal | Throw.

(** A value, or the [TypeError] raised instead. *)
Inductive result (A : Type) :=
| Ok (a : A)
| TypeError.
Global Arguments Ok {A} a.
Global Arguments TypeError {A}.

End Js.
Import Js.

(** ** The part of the DOM the widgets touch *)

Module Dom.

(** [`${n}px`] *)
Inductive css_length := Px (n : Z).

(** The sizer: a [span] with its identity, its text and the style
    properties [_createSizer] assigns. *)
Record Span := mkSpan {
  node_id : nat;
  textContent : string;
  position : string;
  visibility : string;
  whiteSpace : string;
  font : string;
}.

(** An [input] element: what the user typed, the placeholder attribute
    ([None] when the property is not a string), the font the theme gives
    it ([getComputedStyle(input).font]) and its inline [style.width]. *)
Record InputEl := mkInput {
  value : string;
  placeholder : option string;
  computed_font : string;
  style_width : option css_length;
}.

(** [document]: the children of [body] by identity, the identity the next
    created element gets, and [getComputedStyle(document.body).font]. *)
Record Document := mkDocument {
  body : list nat;
  next_id : nat;
  body_font : string;
}.

(** The browser's layout: [offsetWidth] of a span and [scrollWidth] of an
    input, as integers of pixels. *)
Record Layout := mkLayout {
  offsetWidth : Span → Z;
  scrollWidth : InputEl → Z;
}.

Definition set_textContent (t : string) (s : Span) : Span :=
  mkSpan (node_id s) t (position s) (visibility s) (whiteSpace s) (font s).

Definition set_font (f : string) (s : Span) : Span :=
  mkSpan (node_id s) (textContent s) (position s) (visibility s)
         (whiteSpace s) f.

Definition set_width (w : css_length) (i : InputEl) : InputEl :=
  mkInput (value i) (placeholder i) (computed_font i) (Some w).

(** [document.createElement("span")]: a new node, not yet in the tree. *)
Definition createElement_span (d : Document) : Span * Document :=
  (mkSpan (next_id d) "" "" "" "" "",
   mkDocument (body d) (S (next_id d)) (body_font d)).

(** [document.body.appendChild(node)] *)
Definition appendChild (n : nat) (d : Document) : Document :=
  mkDocument (body d ++ [n]) (next_id d) (body_font d).

(** [node.remove()] *)
Definition remove (n : nat) (d : Document) : Document :=
  mkDocument (filter (λ m, m ≠ n) (body d)) (next_id d) (body_font d).


End Dom.
Import Dom.

(** ** What the auto-sizing classes share

    [InlineCharField], [AutoMany2XAutocomplete] and [InlineMany2OneField]
    carry the same [_createSizer]; the first and the last the same
    [willUnmount]. An instance is its [_sizer] field, the document it lives
    in and the element references [R] of its class. *)

Module Widget.

Record State (R : Type) := mkState {
  _sizer : option Span;
  document : Document;
  refs : R;
}.
Global Arguments mkState {R} _ _ _.
Global Arguments _sizer {R} _.
Global Arguments document {R} _.
Global Arguments refs {R} _.

Definition set_refs {R} (r : R) (st : State R) : State R :=
  mkState (_sizer st) (document st) r.

(** A method: it completes and leaves a state. Both resize routines raise
    before their first assignment, so the state of a [Throw] is the state
    the raising statement saw. *)
Definition method (R : Type) := State R → completion * State R.

(** [m1(); m2();] : the second statement runs when the first completes
    normally. *)
Definition chain {R} (m1 m2 : method R) : method R :=
  λ st, match m1 st with
        | (Normal, st') => m2 st'
        | (Throw, st') => (Throw, st')
        end.

(** The style object of [Object.assign(this._sizer.style, {...})]. *)
Definition sizer_style (d : Document) (s : Span) : Span :=
  mkSpan (node_id s) (textContent s) "absolute" "hidden" "pre" (body_font d).

Definition _createSizer {R} (st : State R) : State R :=
  match _sizer st with
  | Some _ => st
  | None =>
      let (span, d) := createElement_span (document st) in
      let span := sizer_style d span in
      mkState (Some span) (appendChild (node_id span) d) (refs st)
  end.

(** [willUnmount] of [InlineCharField] (and of [InlineMany2OneField]).
    [super.willUnmount?.()] calls the method of the host's class when it has
    one; the host knows the element references, not [_sizer]. *)
Definition willUnmount {R} (super_willUnmount : option (R → R))
    (st : State R) : State R :=
  let st :=
    match super_willUnmount with
    | Some super => set_refs (super (refs st)) st
    | None => st
    end in
  match _sizer st with
  | Some sizer => mkState None (remove (node_id sizer) (document st)) (refs st)
  | None => st
  end.

End Widget.
Import Widget.

(** ** field_inline_char.js *)

Module InlineCharField.

(** [this.input.el] *)
Definition Refs := option InputEl.

Section WithLayout.
(** The layout of the browser, and the [willUnmount] of [CharField] when it
    has one. *)
Context (L : Layout) (super_willUnmount : option (Refs → Refs)).

Definition _resizeInput : method Refs :=
  λ st,
  match refs st with
  | None => (Normal, st)
  | Some input =>
      if truthy_str (value input) then
        let input := set_width (Px 1) input in
        let input := set_width (Px (scrollWidth L input + 2)) input in
        (Normal, set_refs (Some input) st)
      else
        match _sizer st with
        | None => (Throw, st)
        | Some sizer =>
            let sizer :=
              set_textContent (or_str (placeholder input) "") sizer in
            let sizer := set_font (computed_font input) sizer in
            let input := set_width (Px (offsetWidth L sizer + 10)) input in
            (Normal, mkState (Some sizer) (document st) (Some input))
        end
  end.

(** The callback [setup] registers with [onMounted], after the [setup] of
    the host's class. *)
Definition onMounted : method Refs :=
  chain (λ st, (Normal, _createSizer st)) _resizeInput.

Definition onInputType : method Refs := _resizeInput.

(** What happens to a mounted field: the user types ([onInputType] runs),
    or the host renders the input anew (another value, placeholder, theme
    font, or no input at all). *)
Inductive Event :=
| InputType
| Render (input : option InputEl).

Definition handle (e : Event) : method Refs :=
  match e with
  | InputType => onInputType
  | Render input => λ st, (Normal, set_refs input st)
  end.

(** The states after each event, with how its handler completed. *)
Fixpoint run (es : list Event) (st : State Refs)
  : list (Event * completion * State Refs) :=
  match es with
  | [] => []
  | e :: es => let (c, st') := handle e st in (e, c, st') :: run es st'
  end.

(** The state after all of them. *)
Fixpoint final (es : list Event) (st : State Refs) : State Refs :=
  match es with
  | [] => st
  | e :: es => final es (snd (handle e st))
  end.

(** One life of a field: the host creates the instance in the document,
    renders the input, runs the mounted callback, delivers events, and at
    teardown calls [willUnmount] and drops the element references. *)
Record Lifetime := mkLifetime {
  rendered : option InputEl;
  events : list Event;
}.

Definition mount (input : option InputEl) (d : Document)
  : completion * State Refs :=
  onMounted (mkState None d input).

Definition unmount (st : State Refs) : State Refs :=
  set_refs None (willUnmount super_willUnmount st).

Definition live (lt : Lifetime) (d : Document) : Document :=
  let (_, st) := mount (rendered lt) d in
  document (unmount (final (events lt) st)).

(** Mount/unmount cycles, one instance after the other. *)
Definition cycles (lts : list Lifetime) (d : Document) : Document :=
  foldl (λ d lt, live lt d) d lts.

End WithLayout.
End InlineCharField.

(** ** inline_many2one.js: the autocomplete of the many2one field *)

Module AutoMany2XAutocomplete.

(** [this.autoCompleteContainer.el], and in it the element
    [querySelector('input')] finds. *)
Definition Refs := option (option InputEl).

(** An option of the dropdown; [displayName] is all the class reads. *)
Record AutoOption := mkOption {
  displayName : option string;
}.

(** [Many2XAutocomplete], the host's class: what its [onChange] and
    [onSelect] do to the input of the container. They know no [_sizer]. *)
Record Host := mkHost {
  super_onChange : string → option InputEl → option InputEl;
  super_onSelect : AutoOption → option InputEl → option InputEl;
}.

Section WithLayout.
Context (L : Layout) (H : Host).

Definition _resizeInput (defaultValue : option string) : method Refs :=
  λ st,
  match refs st with
  | None => (Throw, st)
  | Some container =>
      match container with
      | None => (Normal, st)
      | Some input =>
          let value :=
            or_str (or_opt (or_opt defaultValue (Some (value input)))
                           (placeholder input)) "" in
          match _sizer st with
          | None => (Throw, st)
          | Some sizer =>
              let sizer := set_textContent value sizer in
              let sizer := set_font (computed_font input) sizer in
              let targetWidth := offsetWidth L sizer + 20 in
              let input := set_width (Px targetWidth) input in
              (Normal, mkState (Some sizer) (document st) (Some (Some input)))
          end
      end
  end.

(** The callback [setup] registers with [onMounted], after the [setup] of
    the host's class. *)
Definition onMounted : method Refs :=
  chain (λ st, (Normal, _createSizer st)) (_resizeInput None).

Definition onChange (inputValue : string) : method Refs :=
  chain (λ st, (Normal, set_refs (super_onChange H inputValue <$> refs st) st))
      (_resizeInput None).

Definition onSelect (opt : AutoOption) : method Refs :=
  chain (λ st, (Normal, set_refs (super_onSelect H opt <$> refs st) st))
      (_resizeInput (displayName opt)).

(** What happens to a mounted autocomplete: the content changes, an option
    is selected, or the host renders the input of the container anew. The
    container itself stays while the component is mounted. *)
Inductive Event :=
| Change (inputValue : string)
| Select (opt : AutoOption)
| Render (input : option InputEl).

Definition handle (e : Event) : method Refs :=
  match e with
  | Change inputValue => onChange inputValue
  | Select opt => onSelect opt
  | Render input => λ st, (Normal, set_refs (Some input) st)
  end.

Fixpoint run (es : list Event) (st : State Refs)
  : list (Event * completion * State Refs) :=
  match es with
  | [] => []
  | e :: es => let (c, st') := handle e st in (e, c, st') :: run es st'
  end.

(** The state after all of them. *)
Fixpoint final (es : list Event) (st : State Refs) : State Refs :=
  match es with
  | [] => st
  | e :: es => final es (snd (handle e st))
  end.

(** One life of an autocomplete: as for the char field, but the host
    renders the container, with or without an input in it. *)
Record Lifetime := mkLifetime {
  rendered : option InputEl;
  events : list Event;
}.

Definition mount (input : option InputEl) (d : Document)
  : completion * State Refs :=
  onMounted (mkState None d (Some input)).

(** The class has no teardown of its own: the host drops the element
    references and nothing else happens. *)
Definition unmount (st : State Refs) : State Refs :=
  set_refs None st.

Definition live (lt : Lifetime) (d : Document) : Document :=
  let (_, st) := mount (rendered lt) d in
  document (unmount (final (events lt) st)).

Definition cycles (lts : list Lifetime) (d : Document) : Document :=
  foldl (λ d lt, live lt d) d lts.

End WithLayout.
End AutoMany2XAutocomplete.

(** ** inline_many2one.js: the field itself

    [InlineMany2OneField] puts [AutoMany2XAutocomplete] in the place of the
    autocomplete of the host's field. It has the sizer methods of the char
    field too, but the calls in its mounted callback are commented out. *)

Module InlineMany2OneField.

(** [this.input.el] *)
Definition Refs := option InputEl.

Section WithLayout.
Context (L : Layout).

(** The same text as [InlineCharField._resizeInput]. *)
Definition _resizeInput : method Refs :=
  λ st,
  match refs st with
  | None => (Normal, st)
  | Some input =>
      if truthy_str (value input) then
        let input := set_width (Px 1) input in
        let input := set_width (Px (scrollWidth L input + 2)) input in
        (Normal, set_refs (Some input) st)
      else
        match _sizer st with
        | None => (Throw, st)
        | Some sizer =>
            let sizer :=
              set_textContent (or_str (placeholder input) "") sizer in
            let sizer := set_font (computed_font input) sizer in
            let input := set_width (Px (offsetWidth L sizer + 10)) input in
            (Normal, mkState (Some sizer) (document st) (Some input))
        end
  end.

(** The callback [setup] registers with [onMounted]: nothing is left in
    it. *)
Definition onMounted : method Refs := λ st, (Normal, st).

Definition onInputTypeMany2One : method Refs := _resizeInput.

Definition mount (input : option InputEl) (d : Document)
  : completion * State Refs :=
  onMounted (mkState None d input).

End WithLayout.
End InlineMany2OneField.

(** ** page_list.js: the list view of the fees wizard *)

Module PageList.

Section WithHost.
(** The host: the state of its action manager, the promise [doAction]
    returns, and what a list controller and a list view hold besides. *)
Context {Manager Promise Members Rest : Type}.

(** [this.actionService] *)
Record ActionService := mkActionService {
  doAction : string → Manager → Promise * Manager;
}.

(** A controller class: [onClickCreate] and the members it inherits. *)
Record ControllerClass := mkController {
  onClickCreate : ActionService → Manager → Promise * Manager;
  members : Members;
}.

(** A view description such as [listView]. *)
Record View := mkView {
  Controller : ControllerClass;
  rest : Rest;
}.

(** [class PageListController extends listView.Controller] *)
Definition PageListController (listView : View) : ControllerClass :=
  mkController
    (λ actionService,
       doAction actionService "openeducat_fees.action_select_fees_term_type")
    (members (Controller listView)).

(** [{...listView, Controller: PageListController}] *)
Definition PageListView (listView : View) : View :=
  mkView (PageListController listView) (rest listView).

(** [registry.category("views").add(name, view)] on the views the category
    holds. *)
Definition registry_add (name : string) (v : View)
    (views : gmap string View) : gmap string View :=
  <[name := v]> views.

Definition register (listView : View) (views : gmap string View)
  : gmap string View :=
  registry_add "fees_wizard_list" (PageListView listView) views.

End WithHost.
Global Arguments ActionService : clear implicits.
Global Arguments ControllerClass : clear implicits.
Global Arguments View : clear implicits.

End PageList.

(** ** The fees field widgets *)

Module PageUrlField.

(** [this.props]: the name of the field and the data of the record. *)
Record Props := mkProps {
  name : string;
  data : gmap string jsval;
}.

(** White space of [String.prototype.trim] among the code units below
    U+0100: tab, line feed, vertical tab, form feed, carriage return, space
    and no-break space. *)
Definition is_white_space (c : ascii) : bool :=
  let n := nat_of_ascii c in
  ((9 <=? n) && (n <=? 13) || (n =? 32) || (n =? 160))%nat.

Fixpoint trim_start (s : string) : string :=
  match s with
  | EmptyString => EmptyString
  | String c r => if is_white_space c then trim_start r else s
  end.

Fixpoint trim_end (s : string) : string :=
  match s with
  | EmptyString => EmptyString
  | String c r =>
      match trim_end r with
      | EmptyString => if is_white_space c then EmptyString
                       else String c EmptyString
      | r' => String c r'
      end
  end.

Definition trim (s : string) : string := trim_end (trim_start s).

(** [value.substring(1)] *)
Definition substring1 (s : string) : string :=
  match s with
  | EmptyString => EmptyString
  | String _ r => r
  end.

(** [value[0] === "/"] *)
Definition starts_with_slash (s : string) : bool :=
  match s with
  | String c _ => if decide (c = "/"%char) then true else false
  | EmptyString => false
  end.

(** [get value()], with [super_value] what [super.value] reads: the value
    returned and the props left behind. *)
Definition get_value (super_value : string) (p : Props) : string * Props :=
  let value := super_value in
  let value := if starts_with_slash value then substring1 value else value in
  (value, mkProps (name p) (<[name p := JStr ("/" +:+ trim value)]> (data p))).

End PageUrlField.

Module FeesTermsDisplay.

(** A field of the record: its [selection], a list of [[value, label]]. *)
Record Field := mkField {
  selection : list (jsval * jsval);
}.

Record Props := mkProps {
  name : string;
  fields : gmap string Field;
  data : gmap string jsval;
}.

Record Term := mkTerm {
  value : jsval;
  label : jsval;
  description : jsval;
}.

(** [obj.key] of a data object: [undefined] when the key is absent. *)
Definition get (key : string) (obj : gmap string jsval) : jsval :=
  default JUndefined (obj !! key).

(** [setup()]: the [terms] it stores, or the [TypeError] of reading
    [selection] of a field the record does not have. *)
Definition setup (p : Props) : result (list Term) :=
  match fields p !! name p with
  | None => TypeError
  | Some field =>
      let selection := selection field in
      Ok (map (λ item, mkTerm (fst item) (snd item)
                         (Js.or (get "fees_terms_description" (data p))
                                (JStr "")))
              (filter (λ item, truthy (Js.or (fst item) (snd item)) = true)
                      selection))
  end.

End FeesTermsDisplay.

(** * What the widgets are to do *)

Module Fit.

Section WithLayout.
Context (L : Layout).

(** The text an autocomplete measures: the name of the option just
    selected when there is one, else the value of the input, else its
    placeholder, else nothing. *)
Definition measured_text (defaultValue : option string) (input : InputEl)
  : string :=
  match defaultValue with
  | Some (String _ _ as s) => s
  | _ =>
      match value input with
      | String _ _ as s => s
      | EmptyString =>
          match placeholder input with
          | Some s => s
          | None => ""
          end
      end
  end.

(** The sizer holds [text] in the font of [input], and [input] is as wide
    as the sizer plus [padding]. *)
Definition sized_by (padding : Z) (text : string) (sizer : Span)
    (input : InputEl) : Prop :=
  textContent sizer = text
  ∧ font sizer = computed_font input
  ∧ style_width input = Some (Px (offsetWidth L sizer + padding)).

(** A char field fits: an input with a value is as wide as its content
    scrolls at width [1px], plus 2; an empty one is sized by the sizer
    holding the placeholder, plus 10. *)
Definition char_fitted (st : State InlineCharField.Refs) : Prop :=
  match refs st with
  | None => True
  | Some input =>
      if truthy_str (value input) then
        style_width input =
          Some (Px (scrollWidth L (set_width (Px 1) input) + 2))
      else
        ∃ sizer, _sizer st = Some sizer
                 ∧ sized_by 10 (measured_text None input) sizer input
  end.

(** An autocomplete fits: its input is sized by the sizer holding the
    measured text, plus 20. *)
Definition auto_fitted (defaultValue : option string)
    (st : State AutoMany2XAutocomplete.Refs) : Prop :=
  match refs st with
  | Some (Some input) =>
      ∃ sizer, _sizer st = Some sizer
               ∧ sized_by 20 (measured_text defaultValue input) sizer input
  | _ => True
  end.

(** What an event of an autocomplete leaves fitted. *)
Definition auto_fitted_after (e : AutoMany2XAutocomplete.Event)
    (st : State AutoMany2XAutocomplete.Refs) : Prop :=
  match e with
  | AutoMany2XAutocomplete.Change _ => auto_fitted None st
  | AutoMany2XAutocomplete.Select opt =>
      auto_fitted (AutoMany2XAutocomplete.displayName opt) st
  | AutoMany2XAutocomplete.Render _ => True
  end.

End WithLayout.

(** A layout to compute with: every character is 8 pixels wide, in a span
    and in an input alike. *)
Definition mono : Layout :=
  mkLayout (λ span, 8 * Z.of_nat (String.length (textContent span)))
           (λ input, 8 * Z.of_nat (String.length (value input))).

(** A host whose [onChange] and [onSelect] leave the input alone. *)
Definition quiet : AutoMany2XAutocomplete.Host :=
  AutoMany2XAutocomplete.mkHost (λ _ input, input) (λ _ input, input).

Definition page : Document := mkDocument [0; 1; 2]%nat 3 "14px sans-serif".

Definition sizer0 : Span :=
  mkSpan 3 "" "absolute" "hidden" "pre" "14px sans-serif".

Definition page_with_sizer : Document :=
  mkDocument [0; 1; 2; 3]%nat 4 "14px sans-serif".

End Fit.
Import Fit.

(** ** Readings of the contract that the code does not follow *)

(** Every resize of a char field sizes the input by the sizer: afterwards
    the sizer holds the value of the input (the placeholder when the value
    is empty) and the input is as wide as the sizer plus [padding]. *)
Definition char_sized_by_sizer (L : Layout) (padding : Z)
    (st : State InlineCharField.Refs) : Prop :=
  match InlineCharField._resizeInput L st with
  | (Normal, st') =>
      match refs st', _sizer st' with
      | Some input, Some sizer =>
          sized_by L padding (measured_text None input) sizer input
      | _, _ => False
      end
  | (Throw, _) => False
  end.

(** The same for the width alone: after a resize of a char field the
    input is as wide as the sizer would be with the value of the input (the
    placeholder when the value is empty) in the font of the input, plus
    [padding]. *)
Definition char_width_by_sizer (L : Layout) (padding : Z)
    (st : State InlineCharField.Refs) : Prop :=
  match InlineCharField._resizeInput L st with
  | (Normal, st') =>
      match refs st', _sizer st with
      | Some input, Some sizer =>
          style_width input =
            Some (Px (offsetWidth L
                        (set_font (computed_font input)
                           (set_textContent (measured_text None input) sizer))
                      + padding))
      | _, _ => False
      end
  | (Throw, _) => False
  end.

(** Every resize of an autocomplete whose input is empty measures the
    placeholder (nothing when there is none). *)
Definition auto_empty_measures_placeholder (L : Layout)
    (defaultValue : option string)
    (st : State AutoMany2XAutocomplete.Refs) : Prop :=
  match refs st with
  | Some (Some input) =>
      value input = "" →
      textContent <$>
        _sizer (AutoMany2XAutocomplete._resizeInput L defaultValue st).2
      = Some (default "" (placeholder input))
  | _ => True
  end.

(** A char field with its sizer, in which the user typed [abc]. *)
Definition typed_abc : State InlineCharField.Refs :=
  mkState (Some sizer0) page_with_sizer
          (Some (mkInput "abc" (Some "Name") "14px sans-serif" None)).

(** The same field, empty. *)
Definition empty_name : State InlineCharField.Refs :=
  mkState (Some sizer0) page_with_sizer
          (Some (mkInput "" (Some "Name") "14px sans-serif" None)).

(** An autocomplete with its sizer and an empty input, as when an option
    is picked from the dropdown without typing. *)
Definition picking : State AutoMany2XAutocomplete.Refs :=
  mkState (Some sizer0) page_with_sizer
          (Some (Some (mkInput "" (Some "Search") "14px sans-serif" None))).

(** ** The terms of a selection, by the words of the contract *)

(** The entries whose value or label is truthy, in the order of the
    selection. *)
Fixpoint kept_entries (selection : list (jsval * jsval))
  : list (jsval * jsval) :=
  match selection with
  | [] => []
  | (v, l) :: selection =>
      if truthy v || truthy l then (v, l) :: kept_entries selection
      else kept_entries selection
  end.

(** The description of every term: the [fees_terms_description] of the
    record, or the empty string when that is falsy (or not there). *)
Definition terms_description (data : gmap string jsval) : jsval :=
  match data !! "fees_terms_description" with
  | Some d => if truthy d then d else JStr ""
  | None => JStr ""
  end.

(** [v] without one leading slash. *)
Inductive strip_slash (v : string) : string → Prop :=
| strip_slash_there r : v = String "/" r → strip_slash v r
| strip_slash_none : (∀ r, v ≠ String "/" r) → strip_slash v v.

(** * More of the widgets *)

(** ** The life of the many2one field itself *)

Module InlineMany2OneLife.

Section WithLayout.
(** The layout of the browser, and the [willUnmount] of [Many2OneField]
    when it has one. *)
Context (L : Layout)
        (super_willUnmount
           : option (InlineMany2OneField.Refs → InlineMany2OneField.Refs)).

(** What happens to a mounted field: the user types
    ([onInputTypeMany2One] runs), or the host renders the input anew. *)
Inductive Event :=
| InputTypeMany2One
| Render (input : option InputEl).

Definition handle (e : Event) : method InlineMany2OneField.Refs :=
  match e with
  | InputTypeMany2One => InlineMany2OneField.onInputTypeMany2One L
  | Render input => λ st, (Normal, set_refs input st)
  end.

Fixpoint run (es : list Event) (st : State InlineMany2OneField.Refs)
  : list (Event * completion * State InlineMany2OneField.Refs) :=
  match es with
  | [] => []
  | e :: es => let (c, st') := handle e st in (e, c, st') :: run es st'
  end.

Fixpoint final (es : list Event) (st : State InlineMany2OneField.Refs)
  : State InlineMany2OneField.Refs :=
  match es with
  | [] => st
  | e :: es => final es (snd (handle e st))
  end.

Definition unmount (st : State InlineMany2OneField.Refs)
  : State InlineMany2OneField.Refs :=
  set_refs None (willUnmount super_willUnmount st).

(** A life: mounted, events, teardown. *)
Definition live (input : option InputEl) (es : list Event) (d : Document)
  : Document :=
  let (_, st) := InlineMany2OneField.mount input d in
  document (unmount (final es st)).

End WithLayout.
End InlineMany2OneLife.

(** ** What a browser lays out *)

(** No element is of negative width. *)
Definition layout_nonneg (L : Layout) : Prop :=
  (∀ span, 0 ≤ offsetWidth L span) ∧ (∀ input, 0 ≤ scrollWidth L input).

(** What a resize is to leave of an input and of a sizer. *)
Definition input_content (input : InputEl)
  : string * option string * string :=
  (value input, placeholder input, computed_font input).

Definition sizer_frame (sizer : Span) : nat * string * string * string :=
  (node_id sizer, position sizer, visibility sizer, whiteSpace sizer).

(** The width in pixels an input has in its style, if any. *)
Definition width_px (input : InputEl) : option Z :=
  match style_width input with
  | Some (Px n) => Some n
  | None => None
  end.


(** ** White space around a string *)

Module Blank.
Import PageUrlField.

(** The string begins with white space. *)
Definition starts_blank (s : string) : bool :=
  match s with
  | String c _ => is_white_space c
  | EmptyString => false
  end.

(** The string ends with white space. *)
Fixpoint ends_blank (s : string) : bool :=
  match s with
  | EmptyString => false
  | String c r =>
      match r with
      | EmptyString => is_white_space c
      | String _ _ => ends_blank r
      end
  end.

(** The string is white space throughout (or empty). *)
Fixpoint blank (s : string) : bool :=
  match s with
  | EmptyString => true
  | String c r => is_white_space c && blank r
  end.

End Blank.
Import Blank.

(** ** The effect [PageUrlField.setup] registers

    [setup] gives [useEffect] a function of the input element: with an
    element it makes the closure [fireChangeEvent], adds it as a listener
    of [input] events and returns the closure that removes it again.
    Elements and closures are known by identity; the listeners of the host
    are in the lists too, but what they do when called is the host's. *)

Module PageUrlSetup.

(** [(type, callback)] *)
Definition Listener := (string * nat)%type.

Record World := mkWorld {
  (** the listeners of each element, in the order they were added *)
  listeners : gmap nat (list Listener);
  (** for each [fireChangeEvent] made, the element it closes over *)
  fireChangeEvent : gmap nat nat;
  (** the identity the next closure gets *)
  next_closure : nat;
  (** the events dispatched by [dispatchEvent]: target and type *)
  dispatched : list (nat * string);
}.

(** [el.addEventListener(type, callback)]: a listener that is there
    already is not added again. *)
Definition addEventListener (type : string) (callback : nat)
    (l : list Listener) : list Listener :=
  if decide ((type, callback) ∈ l) then l else l ++ [(type, callback)].

(** [el.removeEventListener(type, callback)] *)
Definition removeEventListener (type : string) (callback : nat)
    (l : list Listener) : list Listener :=
  filter (λ x, x ≠ (type, callback)) l.

(** The closure an effect returns: it removes [callback] from [element]. *)
Record Cleanup := mkCleanup {
  element : nat;
  callback : nat;
}.

(** The effect: [(inputEl) => { if (inputEl) { ... } }]. *)
Definition effect (inputEl : option nat) (w : World)
  : World * option Cleanup :=
  match inputEl with
  | None => (w, None)
  | Some el =>
      let fire := next_closure w in
      (mkWorld (alter (addEventListener "input" fire) el (listeners w))
               (<[fire := el]> (fireChangeEvent w))
               (S fire)
               (dispatched w),
       Some (mkCleanup el fire))
  end.

(** [() => { inputEl.removeEventListener("input", fireChangeEvent) }] *)
Definition cleanup (c : Cleanup) (w : World) : World :=
  mkWorld (alter (removeEventListener "input" (callback c)) (element c)
                 (listeners w))
          (fireChangeEvent w) (next_closure w) (dispatched w).

(** Calling a listener: a [fireChangeEvent] dispatches a [change] event
    on its element; a listener of the host does what the host has it do,
    which is not followed here. *)
Definition call (callback : nat) (w : World) : World :=
  match fireChangeEvent w !! callback with
  | Some el =>
      mkWorld (listeners w) (fireChangeEvent w) (next_closure w)
              (dispatched w ++ [(el, "change")])
  | None => w
  end.

(** The browser delivers an event of [type] to [el]: the listeners of that
    type are called in their order. *)
Definition deliver (type : string) (el : nat) (w : World) : World :=
  foldl (λ w x, if decide (x.1 = type) then call x.2 w else w) w
        (default [] (listeners w !! el)).

(** Every closure in the world was made before. *)
Definition closures_made (w : World) : Prop :=
  (∀ el l, listeners w !! el = Some l →
           Forall (λ x, (x.2 < next_closure w)%nat) l)
  ∧ (∀ fire, is_Some (fireChangeEvent w !! fire) →
             (fire < next_closure w)%nat).

(** A world with one input (element 7) that has a listener of the host. *)
Definition one_input : World :=
  mkWorld {[ 7%nat := [("change", 0%nat)] ]} ∅ 1 [].

End PageUrlSetup.

(** ** The script of the home page (the menu and the gallery)

    The page is its elements in document order, each with its depth in the
    tree: the descendants of an element are the elements that follow it for
    as long as they are deeper. The script adds and removes no element, so
    an element is known by its place in the list. *)

Module HomePage.

Record Element := mkElement {
  depth : nat;
  (** the local name, in lower case *)
  tag : string;
  (** [classList] *)
  classes : gset string;
  (** the attributes but [class], [id] among them *)
  attrs : gmap string string;
}.

Definition has_class (c : string) (e : Element) : bool :=
  bool_decide (c ∈ classes e).

Definition has_id (i : string) (e : Element) : bool :=
  bool_decide (attrs e !! "id" = Some i).

(** [classList.add], [classList.remove], and jQuery's [toggleClass] on
    one element. *)
Definition add_class (c : string) (e : Element) : Element :=
  mkElement (depth e) (tag e) ({[c]} ∪ classes e) (attrs e).

Definition remove_class (c : string) (e : Element) : Element :=
  mkElement (depth e) (tag e) (classes e ∖ {[c]}) (attrs e).

Definition toggle_class (c : string) (e : Element) : Element :=
  if has_class c e then remove_class c e else add_class c e.

(** [el.setAttribute(name, value)] *)
Definition setAttribute (name value : string) (e : Element) : Element :=
  mkElement (depth e) (tag e) (classes e) (<[name := value]> (attrs e)).

(** The places of the elements that match, in document order
    ([querySelectorAll]), counted from [i]. *)
Fixpoint matching_from (P : Element → bool) (i : nat) (dom : list Element)
  : list nat :=
  match dom with
  | [] => []
  | e :: dom =>
      if P e then i :: matching_from P (S i) dom
      else matching_from P (S i) dom
  end.

Definition querySelectorAll (P : Element → bool) (dom : list Element)
  : list nat :=
  matching_from P 0 dom.

(** The first that matches ([querySelector]; jQuery's [$('#id')]), or
    [null]. *)
Definition querySelector (P : Element → bool) (dom : list Element)
  : option nat :=
  head (querySelectorAll P dom).

(** [el.querySelector(...)]: the first match among the descendants of the
    element at [i]. *)
Fixpoint first_descendant (P : Element → bool) (d : nat) (i : nat)
    (rest : list Element) : option nat :=
  match rest with
  | [] => None
  | e :: rest =>
      if (depth e <=? d)%nat then None
      else if P e then Some i
      else first_descendant P d (S i) rest
  end.

Definition querySelector_in (P : Element → bool) (i : nat)
    (dom : list Element) : option nat :=
  match dom !! i with
  | Some e => first_descendant P (depth e) (S i) (drop (S i) dom)
  | None => None
  end.

(** [nodes.forEach(el => f(el))] *)
Definition for_each (f : Element → Element) (nodes : list nat)
    (dom : list Element) : list Element :=
  foldl (λ dom i, alter f i dom) dom nodes.

(** [el.getAttribute(name)]: the value, or [null]. *)
Definition getAttribute (name : string) (i : nat) (dom : list Element)
  : option string :=
  match dom !! i with
  | Some e => attrs e !! name
  | None => None
  end.

(** A value in a template literal or given to [setAttribute]: [null]
    reads [null]. *)
Definition to_text (v : option string) : string :=
  match v with
  | Some s => s
  | None => "null"
  end.

(** *** The menu *)

(** The handler of [$('#hamburger').click(...)]. *)
Definition hamburger_click (dom : list Element) : list Element :=
  let dom :=
    for_each (toggle_class "show")
             (option_list (querySelector (has_id "hamburger") dom)) dom in
  let dom :=
    for_each (toggle_class "show")
             (option_list (querySelector (has_id "overlay") dom)) dom in
  for_each (toggle_class "show") (querySelectorAll (has_class "nav1") dom) dom.

(** *** The gallery *)

(** The characters a CSS string between double quotes takes as they are:
    all but the quote, the backslash, the line breaks and the null
    character. *)
Definition css_plain_char (c : ascii) : bool :=
  let n := nat_of_ascii c in
  negb ((n =? 34) || (n =? 92) || (n =? 10) || (n =? 12) || (n =? 13)
        || (n =? 0))%nat.

Fixpoint css_plain (s : string) : bool :=
  match s with
  | EmptyString => true
  | String c r => css_plain_char c && css_plain r
  end.

(** [.atd[name="..."]], for a plain name. *)
Definition atd_named (name : string) (e : Element) : bool :=
  has_class "atd" e && bool_decide (attrs e !! "name" = Some name).

(** What the script keeps from its load: [imgs] and [imgsrc]. *)
Record Gallery := mkGallery {
  imgs : list nat;
  imgsrc : option nat;
}.

Definition load (dom : list Element) : Gallery :=
  mkGallery (querySelectorAll (has_class "change-img") dom)
            (querySelector (has_class "set-img") dom).

(** How a click ends: done; with a [TypeError], the page as the raising
    statement found it; or, for a name that is no plain CSS string, in a
    way that is not followed here. *)
Inductive outcome :=
| Done (dom : list Element)
| Raised (dom : list Element)
| NotPlain.

(** The listener [changeImg] adds to the thumbnail [img]. *)
Definition click (g : Gallery) (img : nat) (dom : list Element) : outcome :=
  match querySelector_in (λ e, bool_decide (tag e = "img")) img dom with
  | None => Raised dom
  | Some inner =>
      let imgname := getAttribute "name" inner dom in
      let dom := for_each (remove_class "img-overlay") (imgs g) dom in
      let dom := alter (add_class "img-overlay") img dom in
      let dom :=
        for_each (add_class "d-none")
                 (querySelectorAll (has_class "atd") dom) dom in
      if css_plain (to_text imgname) then
        match querySelector (atd_named (to_text imgname)) dom with
        | None => Raised dom
        | Some atd =>
            let dom := alter (remove_class "d-none") atd dom in
            match imgsrc g with
            | None => Raised dom
            | Some target =>
                match querySelector_in (λ e, bool_decide (tag e = "img"))
                                       img dom with
                | None => Raised dom
                | Some inner =>
                    Done (alter (setAttribute "src"
                                   (to_text (getAttribute "src" inner dom)))
                                target dom)
                end
            end
        end
      else NotPlain
  end.

(** A gallery of two thumbnails, two panels and the large image. *)
Definition thumb (name src : string) : list Element :=
  [mkElement 1 "div" {["change-img"]} ∅;
   mkElement 2 "img" ∅ {[ "name" := name; "src" := src ]}].

Definition panel (name : string) (hidden : bool) : Element :=
  mkElement 1 "div" (if hidden then {["atd"; "d-none"]} else {["atd"]})
            {[ "name" := name ]}.

Definition gallery_page : list Element :=
  [mkElement 0 "body" ∅ ∅]
  ++ thumb "day" "/day.svg" ++ thumb "date" "/date.svg"
  ++ [panel "day" false; panel "date" true;
      mkElement 1 "img" {["set-img"]} {[ "src" := "/day.svg" ]}].

End HomePage.

(** ** What the menu and the gallery are to look like *)

Module HomeLooks.
Import HomePage.

(** The elements a click on the menu button toggles: the button, the
    overlay and the navigation. *)
Definition menu_nodes (dom : list Element) : list nat :=
  option_list (querySelector (has_id "hamburger") dom)
  ++ option_list (querySelector (has_id "overlay") dom)
  ++ querySelectorAll (has_class "nav1") dom.

(** No element of the navigation is the button or the overlay. *)
Definition menu_apart (dom : list Element) : Prop :=
  ∀ k e, dom !! k = Some e → has_class "nav1" e = true →
         has_id "hamburger" e = false ∧ has_id "overlay" e = false.

(** A page with the button, the overlay and a navigation of two. *)
Definition menu_page : list Element :=
  [mkElement 0 "body" ∅ ∅;
   mkElement 1 "div" ∅ {[ "id" := "hamburger" ]};
   mkElement 1 "div" ∅ {[ "id" := "overlay" ]};
   mkElement 1 "nav" {["nav1"]} ∅;
   mkElement 1 "nav" {["nav1"]} ∅].

(** Of the thumbnails the script knows, [img] alone is marked. *)
Definition marked_alone (g : Gallery) (img : nat) (dom : list Element)
  : Prop :=
  ∀ j e, j ∈ imgs g → dom !! j = Some e →
         ("img-overlay" ∈ classes e ↔ j = img).

(** Of the panels, [atd] alone is not hidden. *)
Definition shown_alone (atd : nat) (dom : list Element) : Prop :=
  ∀ k e, dom !! k = Some e → has_class "atd" e = true →
         ("d-none" ∈ classes e ↔ k ≠ atd).

(** Every panel is hidden. *)
Definition all_hidden (dom : list Element) : Prop :=
  ∀ k e, dom !! k = Some e → has_class "atd" e = true →
         "d-none" ∈ classes e.

(** What a click leaves of an element: its depth and tag, its classes
    but the two the script sets, its attributes but [src]. *)
Definition same_but_marks_el (e e' : Element) : Prop :=
  depth e' = depth e
  ∧ tag e' = tag e
  ∧ (∀ c, c ≠ "img-overlay" → c ≠ "d-none" →
          (c ∈ classes e' ↔ c ∈ classes e))
  ∧ (∀ a, a ≠ "src" → attrs e' !! a = attrs e !! a).

(** And of the page: every element in its place. *)
Definition same_but_marks (dom dom' : list Element) : Prop :=
  length dom' = length dom
  ∧ ∀ k e e', dom !! k = Some e → dom' !! k = Some e' →
              same_but_marks_el e e'.

(** The page a click leaves, when it is followed to its end. *)
Definition page_after (o : outcome) : option (list Element) :=
  match o with
  | Done dom | Raised dom => Some dom
  | NotPlain => None
  end.

(** The selector [img]. *)
Definition is_img (e : Element) : bool := bool_decide (tag e = "img").

(** The name the thumbnail [img] gives: the [name] of its image, as the
    selector of the panel has it. *)
Definition panel_name (img : nat) (dom : list Element) : option string :=
  inner ← querySelector_in is_img img dom;
  Some (to_text (getAttribute "name" inner dom)).

(** What the first statements of a click make of the element at [k]: the
    mark taken from the thumbnails and given to [img], the panels
    hidden. *)
Definition marked (g : Gallery) (img k : nat) (e : Element) : Element :=
  let e := if decide (k ∈ imgs g) then remove_class "img-overlay" e else e in
  let e := if decide (k = img) then add_class "img-overlay" e else e in
  if has_class "atd" e then add_class "d-none" e else e.

(** The page after the first statements of a click: the mark moved to
    [img] and every panel hidden. *)
Definition hidden_and_marked (g : Gallery) (img : nat) (dom : list Element)
  : list Element :=
  let dom := for_each (remove_class "img-overlay") (imgs g) dom in
  let dom := alter (add_class "img-overlay") img dom in
  for_each (add_class "d-none") (querySelectorAll (has_class "atd") dom) dom.

(** What a whole click makes of the element at [k], when it shows the
    panel [atd] (if it found one) and sets [src] of [target] to [v] (if it
    got that far). *)
Definition finished (g : Gallery) (img : nat) (atd target : option nat)
    (v : string) (k : nat) (e : Element) : Element :=
  let e := marked g img k e in
  let e := if decide (atd = Some k) then remove_class "d-none" e else e in
  if decide (target = Some k) then setAttribute "src" v e else e.

(** A gallery whose one thumbnail names a panel that is not there. *)
Definition lonely_page : list Element :=
  [mkElement 0 "body" ∅ ∅]
  ++ thumb "week" "/week.svg"
  ++ [panel "day" false;
      mkElement 1 "img" {["set-img"]} {[ "src" := "/day.svg" ]}].

End HomeLooks.

(** * Properties *)

(** ** Truthiness *)

Lemma truthy_str_empty s : truthy_str s = false ↔ s = "".
Proof. destruct s; simpl; split; congruence. Qed.

(** ** The document *)


(** ** The sizer of an instance *)

Section SizerFacts.
Context {R : Type}.
Implicit Types st : State R.

Lemma createSizer_owned st :
  is_Some (_sizer st) → _createSizer st = st.
Proof. intros [sz Hsz]. unfold _createSizer. by rewrite Hsz. Qed.

Lemma createSizer_fresh d (r : R) :
  _createSizer (mkState None d r) =
  mkState (Some (mkSpan (next_id d) "" "absolute" "hidden" "pre" (body_font d)))
          (mkDocument (body d ++ [next_id d]) (S (next_id d)) (body_font d)) r.
Proof. reflexivity. Qed.

Lemma createSizer_is_Some st : is_Some (_sizer (_createSizer st)).
Proof.
  destruct st as [[sz|] d r]; [by eexists|].
  rewrite createSizer_fresh. by eexists.
Qed.

Lemma createSizer_twice st : _createSizer (_createSizer st) = _createSizer st.
Proof. apply createSizer_owned, createSizer_is_Some. Qed.

Lemma createSizer_iter st n :
  Nat.iter (S n) _createSizer st = _createSizer st.
Proof.
  induction n as [|n IH]; [done|].
  change (Nat.iter (S (S n)) _createSizer st)
    with (_createSizer (Nat.iter (S n) _createSizer st)).
  by rewrite IH, createSizer_twice.
Qed.

Lemma createSizer_body st :
  body (document (_createSizer st)) =
  body (document st) ++
    match _sizer st with
    | Some _ => []
    | None => [next_id (document st)]
    end.
Proof.
  destruct st as [[sz|] d r]; simpl.
  - by rewrite app_nil_r.
  - done.
Qed.

End SizerFacts.

(** C7. [_createSizer] is idempotent: however often it is called on an
    instance, the result is that of the first call; the instance then owns a
    sizer; and the body got one node (the new sizer, last) when the instance
    had none, and no node when it had one already. *)
Theorem createSizer_idempotent {R : Type} (st : State R) (n : nat) :
  Nat.iter (S n) _createSizer st = _createSizer st
  ∧ is_Some (_sizer (Nat.iter (S n) _createSizer st))
  ∧ body (document (Nat.iter (S n) _createSizer st)) =
      body (document st) ++
        match _sizer st with
        | Some _ => []
        | None => [next_id (document st)]
        end
  ∧ (length (body (document (Nat.iter (S n) _createSizer st)))
       ≤ length (body (document st)) + 1)%nat.
Proof.
  rewrite createSizer_iter. split; [done|].
  split; [apply createSizer_is_Some|].
  rewrite createSizer_body. split; [done|].
  rewrite length_app. destruct (_sizer st); simpl; lia.
Qed.

(** ** The measured text *)

Lemma measured_text_or defaultValue input :
  or_str (or_opt (or_opt defaultValue (Some (value input)))
                 (placeholder input)) "" =
  measured_text defaultValue input.
Proof.
  unfold measured_text.
  destruct defaultValue as [[|c s]|]; simpl;
    destruct (value input) as [|c' v]; simpl; try done;
    destruct (placeholder input) as [[|c'' p]|]; done.
Qed.

Lemma measured_text_placeholder input :
  value input = "" →
  or_str (placeholder input) "" = measured_text None input.
Proof.
  intros Hv. unfold measured_text. rewrite Hv.
  destruct (placeholder input) as [[|c p]|]; done.
Qed.

(** ** The char field *)

Section CharFacts.
Context (L : Layout).
Import InlineCharField.
Implicit Types st : State Refs.

(** What [_resizeInput] does when the instance has its sizer. *)
Lemma char_resize_sized st :
  is_Some (_sizer st) →
  ∃ st', _resizeInput L st = (Normal, st')
         ∧ document st' = document st
         ∧ node_id <$> _sizer st' = node_id <$> _sizer st
         ∧ char_fitted L st'.
Proof.
  intros [sz Hsz]. destruct st as [s d [input|]]; simpl in Hsz; subst s.
  - unfold _resizeInput; simpl.
    destruct (truthy_str (value input)) eqn:Hv.
    + eexists; split; [done|]. repeat split; try done.
      unfold char_fitted; simpl. by rewrite Hv.
    + eexists; split; [done|]. repeat split; try done.
      unfold char_fitted; simpl. rewrite Hv.
      eexists; split; [done|]. repeat split; simpl.
      apply measured_text_placeholder. by apply truthy_str_empty.
  - eexists; split; [done|]. by repeat split.
Qed.

Lemma char_handle_sized e st :
  is_Some (_sizer st) →
  ∃ st', handle L e st = (Normal, st')
         ∧ document st' = document st
         ∧ node_id <$> _sizer st' = node_id <$> _sizer st
         ∧ match e with
           | InputType => char_fitted L st'
           | Render _ => True
           end.
Proof.
  intros Hsz. destruct e as [|input]; simpl.
  - by apply char_resize_sized.
  - eexists; split; [done|]. by repeat split.
Qed.

Lemma fmap_is_Some_inv {A B} (f : A → B) (x y : option A) :
  f <$> x = f <$> y → is_Some y → is_Some x.
Proof. intros Heq [b ->]. destruct x; [by eexists|done]. Qed.

Lemma fmap_Some_is_Some {A B} (f : A → B) (x : option A) b :
  f <$> x = Some b → is_Some x.
Proof. destruct x; [by eexists|done]. Qed.

Lemma char_run_sized es st :
  is_Some (_sizer st) →
  Forall (λ x, x.1.2 = Normal
               ∧ match x.1.1 with
                 | InputType => char_fitted L x.2
                 | Render _ => True
                 end) (run L es st)
  ∧ document (final L es st) = document st
  ∧ node_id <$> _sizer (final L es st) = node_id <$> _sizer st.
Proof.
  revert st. induction es as [|e es IH]; intros st Hsz; [by repeat split|].
  destruct (char_handle_sized e st Hsz) as (st' & He & Hd & Hn & Hfit).
  simpl. rewrite He. simpl.
  destruct (IH st') as (Hall & Hd' & Hn').
  { by eapply fmap_is_Some_inv. }
  split; [constructor; [done|exact Hall]|].
  split; congruence.
Qed.

Lemma char_mount_sized input d :
  ∃ st, mount L input d = (Normal, st)
        ∧ document st =
            mkDocument (body d ++ [next_id d]) (S (next_id d)) (body_font d)
        ∧ node_id <$> _sizer st = Some (next_id d)
        ∧ char_fitted L st.
Proof.
  unfold mount, onMounted, chain. rewrite createSizer_fresh.
  edestruct char_resize_sized as (st' & -> & Hd & Hn & Hfit);
    [|exists st'; split; [done|]]; [by eexists|].
  by rewrite Hd, Hn.
Qed.

End CharFacts.

(** ** The autocomplete *)

Section AutoFacts.
Context (L : Layout) (H : AutoMany2XAutocomplete.Host).
Import AutoMany2XAutocomplete.
Implicit Types st : State Refs.

(** What [_resizeInput] does when the instance has its sizer and the
    container is there. *)
Lemma auto_resize_sized defaultValue st :
  is_Some (_sizer st) → is_Some (refs st) →
  ∃ st', _resizeInput L defaultValue st = (Normal, st')
         ∧ document st' = document st
         ∧ node_id <$> _sizer st' = node_id <$> _sizer st
         ∧ is_Some (refs st')
         ∧ auto_fitted L defaultValue st'.
Proof.
  intros [sz Hsz] [c Hc]. destruct st as [s d r]; simpl in *; subst s r.
  unfold _resizeInput; simpl. destruct c as [input|].
  - eexists; split; [done|]. split_and!; try done.
    unfold auto_fitted; simpl. eexists; split; [done|].
    unfold sized_by; simpl. split_and!; try done.
    exact (measured_text_or defaultValue input).
  - eexists; split; [done|]. by split_and!.
Qed.

Lemma auto_handle_sized e st :
  is_Some (_sizer st) → is_Some (refs st) →
  ∃ st', handle L H e st = (Normal, st')
         ∧ document st' = document st
         ∧ node_id <$> _sizer st' = node_id <$> _sizer st
         ∧ is_Some (refs st')
         ∧ auto_fitted_after L e st'.
Proof.
  intros Hsz Hr. destruct e as [v|opt|input]; simpl.
  - unfold onChange, chain.
    by apply (auto_resize_sized None
                (set_refs (super_onChange H v <$> refs st) st)),
             fmap_is_Some.
  - unfold onSelect, chain.
    by apply (auto_resize_sized (displayName opt)
                (set_refs (super_onSelect H opt <$> refs st) st)),
             fmap_is_Some.
  - eexists; split; [done|]. by split_and!.
Qed.

Lemma auto_run_sized es st :
  is_Some (_sizer st) → is_Some (refs st) →
  Forall (λ x, x.1.2 = Normal ∧ auto_fitted_after L x.1.1 x.2)
         (run L H es st)
  ∧ document (final L H es st) = document st
  ∧ node_id <$> _sizer (final L H es st) = node_id <$> _sizer st.
Proof.
  revert st. induction es as [|e es IH]; intros st Hsz Hr; [by repeat split|].
  destruct (auto_handle_sized e st Hsz Hr) as (st' & He & Hd & Hn & Hr' & Hfit).
  simpl. rewrite He. simpl.
  destruct (IH st') as (Hall & Hd' & Hn'); [|done|].
  { by eapply fmap_is_Some_inv. }
  split; [constructor; [done|exact Hall]|].
  split; congruence.
Qed.

Lemma auto_mount_sized input d :
  ∃ st, mount L input d = (Normal, st)
        ∧ document st =
            mkDocument (body d ++ [next_id d]) (S (next_id d)) (body_font d)
        ∧ node_id <$> _sizer st = Some (next_id d)
        ∧ is_Some (refs st)
        ∧ auto_fitted L None st.
Proof.
  unfold mount, onMounted, chain. rewrite createSizer_fresh.
  edestruct (auto_resize_sized None) as (st' & -> & Hd & Hn & Hr & Hfit);
    [| |exists st'; split; [done|]]; [by eexists..|].
  by rewrite Hd, Hn.
Qed.

(** A life of an autocomplete leaves its sizer behind, as the last child
    of the body. *)
Lemma auto_live lt d :
  live L H lt d =
  mkDocument (body d ++ [next_id d]) (S (next_id d)) (body_font d).
Proof.
  unfold live.
  destruct (auto_mount_sized (rendered lt) d)
    as (st & -> & Hd & Hn & Hr & _).
  destruct (auto_run_sized (events lt) st) as (_ & Hd' & _); [|done|].
  { by eapply fmap_Some_is_Some. }
  unfold unmount, set_refs, Refs in *. simpl. by rewrite Hd', Hd.
Qed.

End AutoFacts.

(** ** Lives of a char field *)

Section CharLives.
Import InlineCharField.
Context (L : Layout) (super : option (Refs → Refs)).


End CharLives.

(** ** Teardown *)

(** C2, which the autocomplete does not meet. It leaks its sizer: after
    any mount/unmount cycles the body holds, behind what it held before,
    one sizer for each cycle, where each was to be removed at unmount. *)
Theorem autocomplete_cycles_leak_sizers
    (L : Layout) (H : AutoMany2XAutocomplete.Host)
    (lts : list AutoMany2XAutocomplete.Lifetime) (d : Document) :
  body (AutoMany2XAutocomplete.cycles L H lts d) =
    body d ++ seq (next_id d) (length lts)
  ∧ next_id (AutoMany2XAutocomplete.cycles L H lts d) =
      (next_id d + length lts)%nat.
Proof.
  revert d. induction lts as [|lt lts IH]; intros d; simpl.
  - rewrite app_nil_r. split; [done|lia].
  - unfold AutoMany2XAutocomplete.cycles in *. simpl.
    destruct (IH (AutoMany2XAutocomplete.live L H lt d)) as [-> ->].
    rewrite auto_live; simpl. rewrite <- app_assoc. split; [done|lia].
Qed.


Example autocomplete_mount_unmount :
  body (AutoMany2XAutocomplete.live mono quiet
          (AutoMany2XAutocomplete.mkLifetime
             (Some (mkInput "" (Some "Search") "14px sans-serif" None)) [])
          page)
  = [0; 1; 2; 3]%nat.
Proof. reflexivity. Qed.

Example char_field_mount_unmount :
  body (InlineCharField.live mono None
          (InlineCharField.mkLifetime
             (Some (mkInput "" (Some "Name") "14px sans-serif" None))
             [InlineCharField.InputType])
          page)
  = [0; 1; 2]%nat.
Proof. vm_compute. reflexivity. Qed.

(** ** Events *)

(** C3. Mounting creates the sizer and then resizes; a content change
    resizes; a selection resizes, for the name of the option. In a life of
    either widget every one of these handlers completes and leaves the
    input fitted. *)
Theorem resize_on_mount_change_select
    (L : Layout) (H : AutoMany2XAutocomplete.Host) :
  (∀ input d es,
     InlineCharField.mount L input d =
       InlineCharField._resizeInput L (_createSizer (mkState None d input))
     ∧ InlineCharField.handle L InlineCharField.InputType =
         InlineCharField._resizeInput L
     ∧ ∃ st, InlineCharField.mount L input d = (Normal, st)
             ∧ is_Some (_sizer st)
             ∧ char_fitted L st
             ∧ Forall (λ x, match x.1.1 with
                            | InlineCharField.InputType =>
                                x.1.2 = Normal ∧ char_fitted L x.2
                            | InlineCharField.Render _ => True
                            end)
                      (InlineCharField.run L es st))
  ∧ (∀ input d es,
       AutoMany2XAutocomplete.mount L input d =
         AutoMany2XAutocomplete._resizeInput L None
           (_createSizer (mkState None d (Some input)))
       ∧ (∀ v st,
            AutoMany2XAutocomplete.handle L H
              (AutoMany2XAutocomplete.Change v) st =
            AutoMany2XAutocomplete._resizeInput L None
              (set_refs (AutoMany2XAutocomplete.super_onChange H v
                           <$> refs st) st))
       ∧ (∀ opt st,
            AutoMany2XAutocomplete.handle L H
              (AutoMany2XAutocomplete.Select opt) st =
            AutoMany2XAutocomplete._resizeInput L
              (AutoMany2XAutocomplete.displayName opt)
              (set_refs (AutoMany2XAutocomplete.super_onSelect H opt
                           <$> refs st) st))
       ∧ ∃ st, AutoMany2XAutocomplete.mount L input d = (Normal, st)
               ∧ is_Some (_sizer st)
               ∧ auto_fitted L None st
               ∧ Forall (λ x, match x.1.1 with
                              | AutoMany2XAutocomplete.Change _ =>
                                  x.1.2 = Normal ∧ auto_fitted L None x.2
                              | AutoMany2XAutocomplete.Select opt =>
                                  x.1.2 = Normal
                                  ∧ auto_fitted L
                                      (AutoMany2XAutocomplete.displayName opt)
                                      x.2
                              | AutoMany2XAutocomplete.Render _ => True
                              end)
                        (AutoMany2XAutocomplete.run L H es st)).
Proof.
  split.
  - intros input d es. split; [done|]. split; [done|].
    destruct (char_mount_sized L input d) as (st & Hm & _ & Hn & Hfit).
    assert (Hsz : is_Some (_sizer st)) by by eapply fmap_Some_is_Some.
    exists st. split_and!; try done.
    destruct (char_run_sized L es st Hsz) as (Hall & _).
    eapply Forall_impl; [exact Hall|].
    intros [[e c] st']; simpl. intros [-> Hf]. by destruct e.
  - intros input d es. split; [done|]. split; [done|]. split; [done|].
    destruct (auto_mount_sized L input d) as (st & Hm & _ & Hn & Hr & Hfit).
    assert (Hsz : is_Some (_sizer st)) by by eapply fmap_Some_is_Some.
    exists st. split_and!; try done.
    destruct (auto_run_sized L H es st Hsz Hr) as (Hall & _).
    eapply Forall_impl; [exact Hall|].
    intros [[e c] st']; simpl. intros [-> Hf]. by destruct e.
Qed.

(** ** Failure *)

(** When the resize routines raise: the char field when it has to use a
    sizer it does not have, the autocomplete when the container is not
    there or when it has an input and no sizer. *)
Lemma char_resize_raises (L : Layout) (st : State InlineCharField.Refs) :
  (InlineCharField._resizeInput L st).1 = Throw
  ↔ ∃ input, refs st = Some input ∧ value input = "" ∧ _sizer st = None.
Proof.
  destruct st as [s d [input|]]; unfold InlineCharField._resizeInput; simpl.
  - destruct (truthy_str (value input)) eqn:Hv.
    + split; [done|]. intros (i & Hi & Hempty & _).
      injection Hi as <-. apply truthy_str_empty in Hempty. congruence.
    + apply truthy_str_empty in Hv. destruct s as [sz|]; simpl.
      * split; [done|]. by intros (i & _ & _ & Hs).
      * split; [|done]. intros _. by exists input.
  - split; [done|]. by intros (i & Hi & _).
Qed.

Lemma auto_resize_raises (L : Layout) defaultValue
    (st : State AutoMany2XAutocomplete.Refs) :
  (AutoMany2XAutocomplete._resizeInput L defaultValue st).1 = Throw
  ↔ refs st = None
    ∨ ((∃ input, refs st = Some (Some input)) ∧ _sizer st = None).
Proof.
  destruct st as [s d [[input|]|]];
    unfold AutoMany2XAutocomplete._resizeInput; simpl.
  - destruct s as [sz|]; simpl.
    + split; [done|]. by intros [|[_ ?]].
    + split; [|done]. intros _. right. split; [by exists input|done].
  - split; [done|]. by intros [|[[i ?] _]].
  - split; [|done]. intros _. by left.
Qed.

(** C6. With no input element the resize routine returns at once: it
    completes normally and the instance, its sizer and the document are as
    before. And through a whole life of either widget, whatever is rendered
    and whatever events arrive, no handler raises. *)
Theorem resize_without_input_is_silent
    (L : Layout) (H : AutoMany2XAutocomplete.Host) :
  (∀ sizer d,
     InlineCharField._resizeInput L (mkState sizer d None)
     = (Normal, mkState sizer d None))
  ∧ (∀ defaultValue sizer d,
       AutoMany2XAutocomplete._resizeInput L defaultValue
         (mkState sizer d (Some None))
       = (Normal, mkState sizer d (Some None)))
  ∧ (∀ input d es,
       (InlineCharField.mount L input d).1 = Normal
       ∧ Forall (λ x, x.1.2 = Normal)
           (InlineCharField.run L es (InlineCharField.mount L input d).2))
  ∧ (∀ input d es,
       (AutoMany2XAutocomplete.mount L input d).1 = Normal
       ∧ Forall (λ x, x.1.2 = Normal)
           (AutoMany2XAutocomplete.run L H es
              (AutoMany2XAutocomplete.mount L input d).2)).
Proof.
  split_and!; try done.
  - intros input d es.
    destruct (char_mount_sized L input d) as (st & -> & _ & Hn & _).
    split; [done|]. simpl.
    destruct (char_run_sized L es st) as (Hall & _).
    { by eapply fmap_Some_is_Some. }
    eapply Forall_impl; [exact Hall|]. by intros x [? _].
  - intros input d es.
    destruct (auto_mount_sized L input d) as (st & -> & _ & Hn & Hr & _).
    split; [done|]. simpl.
    destruct (auto_run_sized L H es st) as (Hall & _); [|done|].
    { by eapply fmap_Some_is_Some. }
    eapply Forall_impl; [exact Hall|]. by intros x [? _].
Qed.

(** ** Width *)

(** The char field sizes an input that has a value by its [scrollWidth],
    not by the sizer: with [abc] typed the sizer stays empty, whatever the
    padding. *)
Lemma char_field_value_leaves_sizer_alone :
  ¬ ∃ padding, char_sized_by_sizer mono padding typed_abc.
Proof.
  intros [padding Hsized]. unfold char_sized_by_sizer, typed_abc in Hsized.
  simpl in Hsized. destruct Hsized as [Htext _]. discriminate Htext.
Qed.

(** Nor is there one padding for the widths alone, even where an input
    scrolls as wide as a span of its text: with [abc] typed the field gets
    26 = 24 + 2 pixels, and empty, with the placeholder [Name],
    42 = 32 + 10. *)
Lemma char_field_width_not_sizer_plus_padding :
  ¬ ∃ padding, char_width_by_sizer mono padding typed_abc
               ∧ char_width_by_sizer mono padding empty_name.
Proof.
  intros (padding & Habc & Hempty).
  unfold char_width_by_sizer, typed_abc, empty_name in *. simpl in *.
  injection Habc as Habc. injection Hempty as Hempty. lia.
Qed.

Example char_field_empty_width :
  InlineCharField._resizeInput mono empty_name =
  (Normal,
   mkState (Some (mkSpan 3 "Name" "absolute" "hidden" "pre" "14px sans-serif"))
           page_with_sizer
           (Some (mkInput "" (Some "Name") "14px sans-serif"
                          (Some (Px 42))))).
Proof. reflexivity. Qed.

Example char_field_value_width :
  InlineCharField._resizeInput mono typed_abc =
  (Normal,
   mkState (Some sizer0) page_with_sizer
           (Some (mkInput "abc" (Some "Name") "14px sans-serif"
                          (Some (Px 26))))).
Proof. reflexivity. Qed.

(** C1, amended. An autocomplete is sized by its sizer: the sizer gets the
    measured text and the font of the input, and the input the width of the
    sizer plus 20. So is a char field whose input is empty, with the
    placeholder and plus 10. A char field whose input has a value gets the
    [scrollWidth] the input has at width [1px], plus 2, and its sizer is
    left alone. *)
Theorem input_width_after_resize (L : Layout) :
  (∀ defaultValue sizer d input,
     ∃ sizer',
       AutoMany2XAutocomplete._resizeInput L defaultValue
         (mkState (Some sizer) d (Some (Some input)))
       = (Normal,
          mkState (Some sizer') d
            (Some (Some (set_width (Px (offsetWidth L sizer' + 20)) input))))
       ∧ sized_by L 20 (measured_text defaultValue input) sizer'
           (set_width (Px (offsetWidth L sizer' + 20)) input))
  ∧ (∀ sizer d p f w,
       ∃ sizer',
         InlineCharField._resizeInput L
           (mkState (Some sizer) d (Some (mkInput "" p f w)))
         = (Normal,
            mkState (Some sizer') d
              (Some (mkInput "" p f (Some (Px (offsetWidth L sizer' + 10))))))
         ∧ sized_by L 10 (default "" p) sizer'
             (mkInput "" p f (Some (Px (offsetWidth L sizer' + 10)))))
  ∧ (∀ sizer d c v p f w,
       InlineCharField._resizeInput L
         (mkState sizer d (Some (mkInput (String c v) p f w)))
       = (Normal,
          mkState sizer d
            (Some (mkInput (String c v) p f
                     (Some (Px (scrollWidth L
                                  (mkInput (String c v) p f (Some (Px 1)))
                                + 2))))))).
Proof.
  split_and!.
  - intros defaultValue sizer d input. eexists. split; [reflexivity|].
    unfold sized_by; simpl. split_and!; try done.
    exact (measured_text_or defaultValue input).
  - intros sizer d p f w. eexists. split; [reflexivity|].
    unfold sized_by; simpl. split_and!; try done.
    by destruct p as [[|c s]|].
  - done.
Qed.

(** ** The text measured *)

(** When an option is selected while the input is empty, the autocomplete
    measures the name of the option, not the placeholder. *)
Lemma autocomplete_selection_not_placeholder :
  ¬ auto_empty_measures_placeholder mono (Some "Alice") picking.
Proof.
  unfold auto_empty_measures_placeholder, picking; simpl.
  intros Hread. specialize (Hread eq_refl). discriminate Hread.
Qed.

Example autocomplete_onSelect_measures_name :
  textContent <$>
    _sizer (AutoMany2XAutocomplete.onSelect mono quiet
              (AutoMany2XAutocomplete.mkOption (Some "Alice")) picking).2
  = Some "Alice".
Proof. reflexivity. Qed.

(** C4, amended. With an empty input the char field measures the
    placeholder, or nothing when there is none; so does the autocomplete
    when no name of a selected option is passed (none at all, or an empty
    one). When a name is passed, the autocomplete measures the name. *)
Theorem empty_value_measures_placeholder (L : Layout) :
  (∀ sizer d p f w,
     textContent <$>
       _sizer (InlineCharField._resizeInput L
                 (mkState (Some sizer) d (Some (mkInput "" p f w)))).2
     = Some (default "" p))
  ∧ (∀ sizer d p f w,
       textContent <$>
         _sizer (AutoMany2XAutocomplete._resizeInput L None
                   (mkState (Some sizer) d (Some (Some (mkInput "" p f w))))).2
       = Some (default "" p))
  ∧ (∀ sizer d p f w,
       textContent <$>
         _sizer (AutoMany2XAutocomplete._resizeInput L (Some "")
                   (mkState (Some sizer) d (Some (Some (mkInput "" p f w))))).2
       = Some (default "" p))
  ∧ (∀ c name sizer d input,
       textContent <$>
         _sizer (AutoMany2XAutocomplete._resizeInput L (Some (String c name))
                   (mkState (Some sizer) d (Some (Some input)))).2
       = Some (String c name)).
Proof.
  split_and!.
  - intros sizer d p f w. simpl. by destruct p as [[|c s]|].
  - intros sizer d p f w. simpl. by destruct p as [[|c s]|].
  - intros sizer d p f w. simpl. by destruct p as [[|c s]|].
  - done.
Qed.

(** ** The font of the sizer *)

(** C5. Whatever font the sizer had (the font of the body, from its
    creation, or that of an earlier resize), a resize that uses the sizer
    gives it the font the input has now, and the width it sets is measured
    on the sizer with that font. *)
Theorem sizer_font_reread_on_resize (L : Layout) :
  (∀ defaultValue sizer d input,
     ∃ sizer' input',
       AutoMany2XAutocomplete._resizeInput L defaultValue
         (mkState (Some sizer) d (Some (Some input)))
       = (Normal, mkState (Some sizer') d (Some (Some input')))
       ∧ font sizer' = computed_font input
       ∧ style_width input' =
           Some (Px (offsetWidth L
                       (set_font (computed_font input)
                          (set_textContent
                             (measured_text defaultValue input) sizer))
                     + 20)))
  ∧ (∀ sizer d p f w,
       ∃ sizer' input',
         InlineCharField._resizeInput L
           (mkState (Some sizer) d (Some (mkInput "" p f w)))
         = (Normal, mkState (Some sizer') d (Some input'))
         ∧ font sizer' = f
         ∧ style_width input' =
             Some (Px (offsetWidth L
                         (set_font f (set_textContent (default "" p) sizer))
                       + 10))).
Proof.
  split.
  - intros defaultValue sizer d input. do 2 eexists.
    split; [reflexivity|]. split; [done|]. simpl.
    by rewrite measured_text_or.
  - intros sizer d p f w. do 2 eexists.
    split; [reflexivity|]. split; [done|]. simpl.
    by destruct p as [[|c s]|].
Qed.

(** A theme that changes the font between mount and the next change: the
    sizer, created with the font of the body, follows the input. *)
Example sizer_follows_theme :
  font <$>
    _sizer (AutoMany2XAutocomplete.final mono quiet
              [AutoMany2XAutocomplete.Render
                 (Some (mkInput "Bob" None "bold 20px serif" None));
               AutoMany2XAutocomplete.Change "Bob"]
              (AutoMany2XAutocomplete.mount mono
                 (Some (mkInput "" None "14px sans-serif" None)) page).2)
  = Some "bold 20px serif".
Proof. reflexivity. Qed.

(** ** The list view of the fees wizard *)

Section PageListFacts.
Import PageList.
Context {Manager Promise Members Rest : Type}.
Abbreviation View := (View Manager Promise Members Rest).
Abbreviation ActionService := (ActionService Manager Promise).

(** C8. The view registered as [fees_wizard_list] is the list view with
    another controller: its [onClickCreate] returns what [doAction] returns
    for the wizard action and leaves the action manager as [doAction] does,
    whatever the [onClickCreate] of the list view would do; the other
    members of the controller and the rest of the view are those of the
    list view. *)
Theorem fees_list_create_opens_wizard
    (listView : View) (views : gmap string View)
    (actionService : ActionService) (m : Manager) :
  ∃ view,
    register listView views !! "fees_wizard_list" = Some view
    ∧ onClickCreate (Controller view) actionService m =
        doAction actionService "openeducat_fees.action_select_fees_term_type" m
    ∧ (∀ create,
         onClickCreate
           (Controller
              (PageListView
                 (mkView (mkController create (members (Controller listView)))
                         (rest listView))))
         = onClickCreate (Controller view))
    ∧ members (Controller view) = members (Controller listView)
    ∧ rest view = rest listView.
Proof.
  exists (PageListView listView). split.
  - unfold register, registry_add. apply lookup_insert_eq.
  - by split_and!.
Qed.

End PageListFacts.

(** ** The URL field *)

Section PageUrlFacts.
Import PageUrlField.

Lemma strip_slash_get_value v p : strip_slash v (get_value v p).1.
Proof.
  unfold get_value; simpl. destruct v as [|c r]; simpl.
  - by apply strip_slash_none.
  - destruct (decide (c = "/"%char)) as [->|Hc].
    + by apply strip_slash_there.
    + apply strip_slash_none. intros r' Heq. by injection Heq.
Qed.

(** C9. Reading [value] when the field holds [v] returns [v] without one
    leading slash, and stores under the name of the field a slash followed
    by what was returned, trimmed: the stored value begins with a slash.
    The other data of the record and the name stay. *)
Theorem page_url_value_strips_and_stores (v : string) (p : Props) :
  strip_slash v (get_value v p).1
  ∧ data (get_value v p).2 !! name p =
      Some (JStr ("/" +:+ trim (get_value v p).1))
  ∧ (∃ stored,
       data (get_value v p).2 !! name p = Some (JStr (String "/" stored)))
  ∧ name (get_value v p).2 = name p
  ∧ (∀ key,
       key ≠ name p → data (get_value v p).2 !! key = data p !! key).
Proof.
  split; [apply strip_slash_get_value|].
  unfold get_value; simpl. split_and!.
  - apply lookup_insert_eq.
  - eexists. apply lookup_insert_eq.
  - done.
  - intros key Hkey. by apply lookup_insert_ne.
Qed.

Example page_url_value_about :
  get_value "/about us " (mkProps "url" ∅) =
  ("about us ", mkProps "url" {[ "url" := JStr "/about us" ]}).
Proof. reflexivity. Qed.

Example page_url_value_double_slash :
  (get_value "//x" (mkProps "url" ∅)).1 = "/x".
Proof. reflexivity. Qed.

Example trim_white_space :
  trim (String "009" (String "010" "  a b  ")) = "a b".
Proof. reflexivity. Qed.

End PageUrlFacts.

(** ** The terms of the fees *)

Section FeesTermsFacts.
Import FeesTermsDisplay.

Lemma truthy_or a b : truthy (Js.or a b) = truthy a || truthy b.
Proof. unfold Js.or. by destruct (truthy a) eqn:Ha; simpl. Qed.

Lemma filter_kept_entries (sel : list (jsval * jsval)) :
  filter (λ item, truthy (Js.or item.1 item.2) = true) sel = kept_entries sel.
Proof.
  induction sel as [|[v l] sel IH]; [done|]. simpl.
  destruct (truthy v || truthy l) eqn:Hvl.
  - rewrite filter_cons_True by (simpl; by rewrite truthy_or). by rewrite IH.
  - rewrite filter_cons_False by (simpl; rewrite truthy_or; congruence).
    exact IH.
Qed.

Lemma terms_description_or (d : gmap string jsval) :
  Js.or (get "fees_terms_description" d) (JStr "") = terms_description d.
Proof.
  unfold get, terms_description, Js.or.
  by destruct (d !! "fees_terms_description").
Qed.

(** C10. [setup] keeps, in the order of the selection, the entries whose
    value or label is truthy, and makes of each a term with that value,
    that label and the description of the record (the empty string when
    falsy). Without the field in the record it raises. *)
Theorem fees_terms_of_selection (p : Props) :
  match fields p !! name p with
  | Some field =>
      setup p =
      Ok (map (λ item, mkTerm item.1 item.2 (terms_description (data p)))
              (kept_entries (selection field)))
  | None => setup p = TypeError
  end.
Proof.
  unfold setup. destruct (fields p !! name p) as [field|]; [|done].
  by rewrite filter_kept_entries, terms_description_or.
Qed.

Example fees_terms_example :
  setup (mkProps "term_type"
           {[ "term_type" :=
                mkField [(JBool false, JStr "");
                         (JStr "fixed_days", JStr "Fixed Days");
                         (JBool false, JStr "None");
                         (JStr "", JStr "");
                         (JStr "fixed_date", JStr "Fixed Date")] ]}
           ∅)
  = Ok [mkTerm (JStr "fixed_days") (JStr "Fixed Days") (JStr "");
        mkTerm (JBool false) (JStr "None") (JStr "");
        mkTerm (JStr "fixed_date") (JStr "Fixed Date") (JStr "")].
Proof. reflexivity. Qed.

End FeesTermsFacts.

(** ** The many2one field itself *)


(** ** Instances of the statements above *)

Lemma page_url_value_keeps_title :
  "title" ≠ "url"
  ∧ PageUrlField.data
      (PageUrlField.get_value "/about us "
         (PageUrlField.mkProps "url" {[ "title" := JStr "About" ]})).2
      !! "title"
    = Some (JStr "About").
Proof.
  assert (Hne : "title" ≠ "url") by discriminate.
  split; [exact Hne|].
  destruct (page_url_value_strips_and_stores "/about us "
              (PageUrlField.mkProps "url" {[ "title" := JStr "About" ]}))
    as (_ & _ & _ & _ & Hkeep).
  rewrite (Hkeep "title" Hne). reflexivity.
Defined.


(** * More properties *)

(** ** Resizing again, and what a resize leaves alone *)

(** A resize that follows a resize changes nothing: the second finds the
    width (and the sizer) the first left, and completes as the first did. *)
Theorem resize_twice (L : Layout) :
  (∀ st,
     InlineCharField._resizeInput L (InlineCharField._resizeInput L st).2
     = InlineCharField._resizeInput L st)
  ∧ (∀ defaultValue st,
       AutoMany2XAutocomplete._resizeInput L defaultValue
         (AutoMany2XAutocomplete._resizeInput L defaultValue st).2
       = AutoMany2XAutocomplete._resizeInput L defaultValue st).
Proof.
  split.
  - intros [s d [input|]]; [|done].
    unfold InlineCharField._resizeInput; simpl.
    destruct (truthy_str (value input)) eqn:Hv; simpl.
    + by rewrite Hv.
    + destruct s as [sz|]; simpl; by rewrite Hv.
  - intros defaultValue [s d [[input|]|]]; try done.
    unfold AutoMany2XAutocomplete._resizeInput; simpl.
    by destruct s as [sz|].
Qed.

(** A resize never touches the document, nor the value, the placeholder
    or the font of the input, nor the identity and the style of the sizer
    but its font; it neither makes nor drops an input or a sizer. *)
Theorem resize_frame (L : Layout) :
  (∀ st,
     document (InlineCharField._resizeInput L st).2 = document st
     ∧ fmap (M:=option) input_content
         (refs (InlineCharField._resizeInput L st).2)
       = fmap (M:=option) input_content (refs st)
     ∧ fmap (M:=option) sizer_frame
         (_sizer (InlineCharField._resizeInput L st).2)
       = fmap (M:=option) sizer_frame (_sizer st))
  ∧ (∀ defaultValue st,
       document (AutoMany2XAutocomplete._resizeInput L defaultValue st).2
       = document st
       ∧ fmap (M:=option) (fmap (M:=option) input_content)
           (refs (AutoMany2XAutocomplete._resizeInput L defaultValue st).2)
         = fmap (M:=option) (fmap (M:=option) input_content) (refs st)
       ∧ fmap (M:=option) sizer_frame
           (_sizer (AutoMany2XAutocomplete._resizeInput L defaultValue st).2)
         = fmap (M:=option) sizer_frame (_sizer st)).
Proof.
  split.
  - intros [s d [input|]]; [|done].
    unfold InlineCharField._resizeInput; simpl.
    destruct (truthy_str (value input)); [done|].
    by destruct s as [sz|].
  - intros defaultValue [s d [[input|]|]]; try done.
    unfold AutoMany2XAutocomplete._resizeInput; simpl.
    by destruct s as [sz|].
Qed.

(** In a browser that lays out no negative width, an input that a resize
    has sized is at least 2 pixels wide in a char field and 20 in an
    autocomplete: the width of [1px] the char field sets on the way is
    never the one it leaves. *)
Theorem resized_width_at_least (L : Layout) :
  layout_nonneg L →
  (∀ st st' input,
     InlineCharField._resizeInput L st = (Normal, st') →
     refs st' = Some input →
     ∃ n, width_px input = Some n ∧ 2 ≤ n)
  ∧ (∀ defaultValue st st' input,
       AutoMany2XAutocomplete._resizeInput L defaultValue st = (Normal, st') →
       refs st' = Some (Some input) →
       ∃ n, width_px input = Some n ∧ 20 ≤ n).
Proof.
  intros [Hoff Hscroll]. split.
  - intros [s d [i|]] st' input; [|by intros [= <-]].
    unfold InlineCharField._resizeInput; simpl.
    destruct (truthy_str (value i)).
    + intros [= <-] [= <-]. eexists; split; [done|].
      specialize (Hscroll (set_width (Px 1) i)). lia.
    + destruct s as [sz|]; [|done].
      intros [= <-] [= <-]. eexists; split; [done|].
      match goal with |- _ ≤ offsetWidth L ?x + _ =>
        specialize (Hoff x) end. lia.
  - intros defaultValue [s d [[i|]|]] st' input; try done.
    + unfold AutoMany2XAutocomplete._resizeInput; simpl.
      destruct s as [sz|]; [|done].
      intros [= <-] [= <-]. eexists; split; [done|].
      match goal with |- _ ≤ offsetWidth L ?x + _ =>
        specialize (Hoff x) end. lia.
    + by intros [= <-].
Qed.

Lemma resized_width_at_least_mono :
  layout_nonneg mono
  ∧ InlineCharField._resizeInput mono typed_abc
    = (Normal,
       mkState (Some sizer0) page_with_sizer
         (Some (mkInput "abc" (Some "Name") "14px sans-serif" (Some (Px 26)))))
  ∧ ∃ n, width_px (mkInput "abc" (Some "Name") "14px sans-serif"
                     (Some (Px 26))) = Some n
         ∧ 2 ≤ n.
Proof.
  assert (Hnonneg : layout_nonneg mono).
  { split; intros x; simpl; lia. }
  split; [exact Hnonneg|]. split; [reflexivity|].
  exact (proj1 (resized_width_at_least mono Hnonneg) typed_abc _ _
               eq_refl eq_refl).
Defined.

(** ** Teardown of an instance *)

Lemma not_elem_of_filter_neq (n : nat) (l : list nat) :
  n ∉ filter (λ m, m ≠ n) l.
Proof. rewrite list_elem_of_filter. by intros [Hn _]. Qed.

(** [willUnmount] leaves the instance without sizer and the body without
    the node of the sizer, all other children in their order; called again,
    it leaves the document alone. *)
Theorem willUnmount_releases {R : Type} (super : option (R → R))
    (st : State R) :
  _sizer (willUnmount super st) = None
  ∧ match _sizer st with
    | Some sizer =>
        body (document (willUnmount super st))
        = filter (λ m, m ≠ node_id sizer) (body (document st))
        ∧ node_id sizer ∉ body (document (willUnmount super st))
    | None => document (willUnmount super st) = document st
    end
  ∧ document (willUnmount super (willUnmount super st))
    = document (willUnmount super st).
Proof.
  assert (Hnone : ∀ st' : State R,
             _sizer st' = None →
             document (willUnmount super st') = document st').
  { intros st' Hs. unfold willUnmount.
    destruct super as [f|]; simpl; by rewrite Hs. }
  assert (Hgone : _sizer (willUnmount super st) = None).
  { unfold willUnmount. destruct super as [f|]; simpl;
      by destruct (_sizer st) eqn:Hs; simpl. }
  split; [exact Hgone|]. split; [|by apply Hnone].
  destruct (_sizer st) as [sizer|] eqn:Hs; [|by apply Hnone].
  assert (Hbody : body (document (willUnmount super st))
                  = filter (λ m, m ≠ node_id sizer) (body (document st))).
  { unfold willUnmount. destruct super as [f|]; simpl; by rewrite Hs. }
  split; [exact Hbody|]. rewrite Hbody. apply not_elem_of_filter_neq.
Qed.

(** ** The document through a life *)

(** While a widget is mounted its events leave the document as mounting
    left it: the body as before with the sizer as its last child, and that
    sizer the one the instance holds. *)
Theorem events_keep_document
    (L : Layout) (H : AutoMany2XAutocomplete.Host) :
  (∀ input d es,
     document (InlineCharField.final L es (InlineCharField.mount L input d).2)
     = mkDocument (body d ++ [next_id d]) (S (next_id d)) (body_font d)
     ∧ fmap (M:=option) node_id
         (_sizer (InlineCharField.final L es
                    (InlineCharField.mount L input d).2))
       = Some (next_id d))
  ∧ (∀ input d es,
       document (AutoMany2XAutocomplete.final L H es
                   (AutoMany2XAutocomplete.mount L input d).2)
       = mkDocument (body d ++ [next_id d]) (S (next_id d)) (body_font d)
       ∧ fmap (M:=option) node_id
           (_sizer (AutoMany2XAutocomplete.final L H es
                      (AutoMany2XAutocomplete.mount L input d).2))
         = Some (next_id d)).
Proof.
  split.
  - intros input d es.
    destruct (char_mount_sized L input d) as (st & -> & Hd & Hn & _). simpl.
    destruct (char_run_sized L es st) as (_ & Hd' & Hn').
    { by eapply fmap_Some_is_Some. }
    unfold InlineCharField.Refs in *. by rewrite Hd', Hd, Hn', Hn.
  - intros input d es.
    destruct (auto_mount_sized L input d) as (st & -> & Hd & Hn & Hr & _).
    simpl.
    destruct (auto_run_sized L H es st) as (_ & Hd' & Hn'); [|done|].
    { by eapply fmap_Some_is_Some. }
    unfold AutoMany2XAutocomplete.Refs in *. by rewrite Hd', Hd, Hn', Hn.
Qed.





(** ** The life of the many2one field itself *)

Section Many2OneLifeFacts.
Import InlineMany2OneLife.
Context (L : Layout)
        (super : option (InlineMany2OneField.Refs → InlineMany2OneField.Refs)).



End Many2OneLifeFacts.

(** ** What the URL field stores *)

Section TrimFacts.
Import PageUrlField.

Lemma starts_blank_trim_start s : starts_blank (trim_start s) = false.
Proof.
  induction s as [|c r IH]; [done|]. simpl.
  destruct (is_white_space c) eqn:Hc; [done|]. simpl. exact Hc.
Qed.

Lemma trim_start_fixed s : starts_blank s = false → trim_start s = s.
Proof. destruct s as [|c r]; [done|]. simpl. by intros ->. Qed.

Lemma trim_start_empty s : trim_start s = "" ↔ blank s = true.
Proof.
  induction s as [|c r IH]; [done|]. simpl.
  destruct (is_white_space c); simpl; [exact IH|]. split; discriminate.
Qed.

Lemma ends_blank_trim_end s : ends_blank (trim_end s) = false.
Proof.
  induction s as [|c r IH]; [done|]. simpl.
  destruct (trim_end r) as [|c' r'] eqn:Hr.
  - destruct (is_white_space c) eqn:Hc; [done|]. simpl. exact Hc.
  - exact IH.
Qed.

Lemma trim_end_fixed s : ends_blank s = false → trim_end s = s.
Proof.
  induction s as [|c r IH]; [done|]. simpl.
  destruct r as [|c' r'].
  - simpl. by intros ->.
  - intros Hr. by rewrite (IH Hr).
Qed.

Lemma trim_end_empty s : trim_end s = "" ↔ blank s = true.
Proof.
  induction s as [|c r IH]; [done|]. simpl.
  destruct (trim_end r) as [|c' r'].
  - destruct (is_white_space c); simpl.
    + split; [intros _; by apply IH|done].
    + split; discriminate.
  - split; [discriminate|]. intros [_ Hr]%andb_prop.
    apply IH in Hr. discriminate.
Qed.

Lemma starts_blank_trim_end s :
  starts_blank s = false → starts_blank (trim_end s) = false.
Proof.
  destruct s as [|c r]; [done|]. simpl. intros Hc.
  destruct (trim_end r); [|done]. by rewrite Hc.
Qed.

Lemma trim_trimmed s :
  starts_blank (trim s) = false ∧ ends_blank (trim s) = false.
Proof.
  unfold trim. split.
  - apply starts_blank_trim_end, starts_blank_trim_start.
  - apply ends_blank_trim_end.
Qed.

Lemma trim_fixed s :
  starts_blank s = false → ends_blank s = false → trim s = s.
Proof.
  intros Hs He. unfold trim. by rewrite trim_start_fixed, trim_end_fixed.
Qed.

Lemma trim_empty s : trim s = "" ↔ blank s = true.
Proof.
  unfold trim. rewrite trim_end_empty. split.
  - intros Hb. apply trim_start_empty.
    destruct (trim_start s) as [|c r] eqn:Hs; [done|].
    pose proof (starts_blank_trim_start s) as Hc. rewrite Hs in Hc.
    simpl in *. by rewrite Hc in Hb.
  - intros Hb. apply trim_start_empty in Hb. by rewrite Hb.
Qed.

Lemma get_value_slash t p :
  get_value ("/" +:+ t) p
  = (t, mkProps (name p) (<[name p := JStr ("/" +:+ trim t)]> (data p))).
Proof. reflexivity. Qed.

(** What a read stores is a slash and then a string with no white space
    at either end. *)
Theorem page_url_stored_is_trimmed (v : string) (p : Props) :
  ∃ t, data (get_value v p).2 !! name p = Some (JStr (String "/" t))
       ∧ starts_blank t = false
       ∧ ends_blank t = false.
Proof.
  exists (trim (get_value v p).1). split.
  - unfold get_value; simpl. apply lookup_insert_eq.
  - apply trim_trimmed.
Qed.

(** A second read, of what the first stored, returns the value of the
    first without the white space around it and leaves the record as the
    first read left it. *)
Theorem page_url_read_again (v : string) (p : Props) :
  get_value ("/" +:+ trim (get_value v p).1) (get_value v p).2
  = (trim (get_value v p).1, (get_value v p).2).
Proof.
  destruct (trim_trimmed (get_value v p).1) as [Hs He].
  rewrite get_value_slash. rewrite (trim_fixed _ Hs He).
  unfold get_value; simpl. by rewrite insert_insert_eq.
Qed.

(** Only one slash is stripped, and only one at the very start: when the
    value returned still begins with a slash once its leading white space
    is dropped, what is stored begins with two. *)
Theorem page_url_double_slash (v : string) (p : Props) (r : string) :
  trim_start (get_value v p).1 = String "/" r →
  ∃ t, data (get_value v p).2 !! name p
       = Some (JStr (String "/" (String "/" t))).
Proof.
  intros Hr. unfold get_value in *; simpl in *.
  rewrite lookup_insert_eq. unfold trim. rewrite Hr. simpl.
  destruct (trim_end r) as [|c r']; by eexists.
Qed.

Lemma page_url_double_slash_after_space :
  PageUrlField.trim_start
    (get_value (String " " "/fees") (mkProps "url" ∅)).1
  = String "/" "fees"
  ∧ ∃ t, data (get_value (String " " "/fees") (mkProps "url" ∅)).2 !! "url"
         = Some (JStr (String "/" (String "/" t))).
Proof.
  split; [reflexivity|].
  exact (page_url_double_slash (String " " "/fees") (mkProps "url" ∅)
                               "fees" eq_refl).
Defined.

(** What is stored is the bare slash exactly when the value returned is
    white space throughout, the empty value included. *)
Theorem page_url_blank_stores_slash (v : string) (p : Props) :
  data (get_value v p).2 !! name p = Some (JStr "/")
  ↔ blank (get_value v p).1 = true.
Proof.
  rewrite <- trim_empty. unfold get_value; simpl.
  rewrite lookup_insert_eq.
  set (t := trim (if starts_with_slash v then substring1 v else v)).
  split.
  - intros [= Heq]. exact Heq.
  - intros Ht. change (Some (JStr (String "/" t)) = Some (JStr "/")).
    by rewrite Ht.
Qed.

End TrimFacts.

(** ** The effect of the URL field *)

Section PageUrlSetupFacts.
Import PageUrlSetup.

Lemma remove_added_listener type fire (l : list (string * nat)) :
  Forall (λ x, (x.2 < fire)%nat) l →
  removeEventListener type fire (addEventListener type fire l) = l.
Proof.
  intros Hfresh.
  assert (Hnot : ∀ x, x ∈ l → x ≠ (type, fire)).
  { intros x Hx ->. rewrite Forall_forall in Hfresh.
    specialize (Hfresh _ Hx). simpl in Hfresh. lia. }
  assert (Hkeep : filter (λ x, x ≠ (type, fire)) l = l).
  { clear Hfresh. induction l as [|x l IH]; [done|].
    rewrite filter_cons_True by (apply Hnot; left).
    rewrite IH; [done|]. intros y Hy. apply Hnot. by right. }
  unfold removeEventListener, addEventListener, Listener in *.
  destruct (decide ((type, fire) ∈ l)) as [Hin|_].
  - by destruct (Hnot _ Hin).
  - rewrite filter_app, Hkeep.
    rewrite filter_cons_False, filter_nil by (intros Hne; by apply Hne).
    by rewrite app_nil_r.
Qed.

Lemma calls_of_the_host type w (l : list (string * nat)) :
  Forall (λ x, fireChangeEvent w !! x.2 = None) l →
  foldl (λ w x, if decide (x.1 = type) then call x.2 w else w) w l = w.
Proof.
  induction 1 as [|x l Hx _ IH]; [done|]. simpl.
  destruct (decide (x.1 = type)); [|exact IH].
  unfold call at 2. rewrite Hx. exact IH.
Qed.

Lemma one_input_made : closures_made one_input.
Proof.
  split.
  - intros el l Hl. unfold one_input in Hl; simpl in Hl.
    destruct (decide (el = 7%nat)) as [->|Hne].
    + rewrite lookup_singleton_eq in Hl. injection Hl as <-.
      by repeat constructor.
    + by rewrite lookup_singleton_ne in Hl.
  - intros fire [x Hx]. unfold one_input in Hx; simpl in Hx.
    by rewrite lookup_empty in Hx.
Qed.

(** Without an input element the effect does nothing and returns no
    cleanup. With one, in a world whose closures were all made before,
    the cleanup it returns undoes it: the listeners of every element are
    as they were, and nothing was dispatched. *)
Theorem page_url_effect_undone (w : World) (el : nat) :
  closures_made w →
  effect None w = (w, None)
  ∧ ∃ w' c, effect (Some el) w = (w', Some c)
            ∧ listeners (cleanup c w') = listeners w
            ∧ dispatched (cleanup c w') = dispatched w.
Proof.
  intros [Hmade _]. split; [done|]. do 2 eexists. split; [done|].
  split; [|done]. simpl. rewrite alter_alter_eq.
  apply map_eq. intros i. rewrite lookup_alter.
  case_decide as Hi; [subst i|done].
  destruct (listeners w !! el) as [l|] eqn:Hl; [|done]. simpl.
  f_equal. apply remove_added_listener. by eapply Hmade.
Qed.

Lemma page_url_effect_undone_one_input :
  closures_made one_input
  ∧ ∃ w' c, effect (Some 7%nat) one_input = (w', Some c)
            ∧ listeners (cleanup c w') = listeners one_input
            ∧ dispatched (cleanup c w') = dispatched one_input.
Proof.
  pose proof one_input_made as Hmade.
  split; [exact Hmade|].
  exact (proj2 (page_url_effect_undone one_input 7 Hmade)).
Defined.

(** While the effect is in place on an element that had no
    [fireChangeEvent] yet, an [input] event delivered to the element
    dispatches one [change] event on it and nothing else; once the cleanup
    has run it dispatches none. *)
Theorem page_url_input_fires_change (w : World) (el : nat)
    (l : list (string * nat)) :
  closures_made w →
  listeners w !! el = Some l →
  Forall (λ x, fireChangeEvent w !! x.2 = None) l →
  ∃ w' c, effect (Some el) w = (w', Some c)
          ∧ dispatched (deliver "input" el w')
            = dispatched w ++ [(el, "change")]
          ∧ dispatched (deliver "input" el (cleanup c w')) = dispatched w.
Proof.
  intros [Hmade _] Hl Hhost. do 2 eexists. split; [done|].
  unfold Listener in *. pose proof (Hmade _ _ Hl) as Hfresh.
  set (fire := next_closure w).
  assert (Hhost' : ∀ w0 : World,
             fireChangeEvent w0 = <[fire := el]> (fireChangeEvent w) →
             Forall (λ x, fireChangeEvent w0 !! x.2 = None) l).
  { intros w0 ->. rewrite Forall_forall in *. intros x Hx.
    rewrite lookup_insert_ne; [by apply Hhost|].
    specialize (Hfresh _ Hx). simpl in Hfresh. subst fire. lia. }
  assert (Hnotin : ("input", fire) ∉ l).
  { intros Hin. rewrite Forall_forall in Hfresh.
    specialize (Hfresh _ Hin). simpl in Hfresh. subst fire. lia. }
  split.
  - unfold deliver; simpl. rewrite lookup_alter_eq, Hl. simpl.
    unfold addEventListener. rewrite decide_False by done.
    rewrite foldl_app.
    match goal with
    | |- context [foldl _ ?w0 l] =>
        rewrite (calls_of_the_host "input" w0 l) by by apply Hhost'
    end.
    simpl. unfold call; simpl. by rewrite lookup_insert_eq.
  - unfold deliver; simpl. rewrite alter_alter_eq.
    rewrite lookup_alter_eq, Hl. simpl.
    rewrite remove_added_listener by done.
    match goal with
    | |- context [foldl _ ?w0 l] =>
        by rewrite (calls_of_the_host "input" w0 l) by by apply Hhost'
    end.
Qed.

Lemma page_url_input_fires_change_one_input :
  ∃ w' c, effect (Some 7%nat) one_input = (w', Some c)
          ∧ dispatched (deliver "input" 7 w') = [(7%nat, "change")]
          ∧ dispatched (deliver "input" 7 (cleanup c w')) = [].
Proof.
  pose proof one_input_made as Hmade.
  exact (page_url_input_fires_change one_input 7 [("change", 0%nat)]
           Hmade eq_refl ltac:(by repeat constructor)).
Defined.

End PageUrlSetupFacts.

(** ** The terms of the fees, again *)

Section FeesTermsShape.
Import FeesTermsDisplay.

Lemma kept_entries_sublist (sel : list (jsval * jsval)) :
  kept_entries sel `sublist_of` sel.
Proof.
  induction sel as [|[v l] sel IH]; [done|]. simpl.
  destruct (truthy v || truthy l).
  - by apply sublist_skip.
  - by apply sublist_cons.
Qed.

Lemma kept_entries_truthy (sel : list (jsval * jsval)) :
  Forall (λ item, truthy item.1 || truthy item.2 = true) (kept_entries sel).
Proof.
  induction sel as [|[v l] sel IH]; [done|]. simpl.
  destruct (truthy v || truthy l) eqn:Hvl; [|done]. by constructor.
Qed.

Lemma kept_entries_all (sel : list (jsval * jsval)) :
  Forall (λ item, truthy item.1 || truthy item.2 = true) sel →
  kept_entries sel = sel.
Proof.
  induction 1 as [|[v l] sel Hvl _ IH]; [done|]. simpl in *.
  by rewrite Hvl, IH.
Qed.

Lemma terms_description_never_falsy (d : gmap string jsval) :
  truthy (terms_description d) = true ∨ terms_description d = JStr "".
Proof.
  unfold terms_description.
  destruct (d !! "fees_terms_description") as [x|]; [|by right].
  destruct (truthy x) eqn:Hx; [by left|by right].
Qed.

(** The terms of a field the record has: their values and labels are
    entries of the selection in its order, none with both value and label
    falsy; every term carries the same description, which is truthy or the
    empty string, never [undefined]; and a selection without blank entries
    is kept whole. *)
Theorem fees_terms_shape (p : Props) (field : Field) :
  fields p !! name p = Some field →
  ∃ terms,
    setup p = Ok terms
    ∧ map (λ t, (value t, label t)) terms `sublist_of` selection field
    ∧ Forall (λ t, truthy (value t) || truthy (label t) = true) terms
    ∧ Forall (λ t, description t = terms_description (data p)) terms
    ∧ (truthy (terms_description (data p)) = true
       ∨ terms_description (data p) = JStr "")
    ∧ (Forall (λ item, truthy item.1 || truthy item.2 = true)
              (selection field) →
       map (λ t, (value t, label t)) terms = selection field).
Proof.
  intros Hfield. unfold setup. rewrite Hfield.
  rewrite filter_kept_entries, terms_description_or.
  eexists. split; [done|].
  assert (Hmap : ∀ l : list (jsval * jsval),
             map (λ t, (value t, label t))
               (map (λ item, mkTerm item.1 item.2
                               (terms_description (data p))) l) = l).
  { intros l. rewrite map_map. simpl.
    induction l as [|[v lb] l IH]; [done|]. simpl. by rewrite IH. }
  rewrite Hmap. split_and!.
  - apply kept_entries_sublist.
  - apply Forall_fmap. eapply Forall_impl; [apply kept_entries_truthy|].
    by intros [v l].
  - apply Forall_fmap. by apply Forall_true.
  - apply terms_description_never_falsy.
  - apply kept_entries_all.
Qed.

Lemma fees_terms_shape_two_entries :
  ∃ terms,
    setup (mkProps "term_type"
             {[ "term_type" :=
                  mkField [(JBool false, JStr "");
                           (JStr "fixed_days", JStr "Fixed Days")] ]}
             ∅)
    = Ok terms
    ∧ map (λ t, (value t, label t)) terms
      `sublist_of` [(JBool false, JStr "");
                    (JStr "fixed_days", JStr "Fixed Days")].
Proof.
  destruct (fees_terms_shape
              (mkProps "term_type"
                 {[ "term_type" :=
                      mkField [(JBool false, JStr "");
                               (JStr "fixed_days", JStr "Fixed Days")] ]}
                 ∅)
              (mkField [(JBool false, JStr "");
                        (JStr "fixed_days", JStr "Fixed Days")])
              ltac:(simpl; apply lookup_singleton_eq))
    as (terms & Hsetup & Hsub & _).
  exists terms. by split.
Defined.

End FeesTermsShape.

(** ** The script of the home page *)

Section HomePageFacts.
Import HomePage.
Implicit Types dom : list Element.
Implicit Types P : Element → bool.

Lemma elem_of_matching_from P i dom k :
  k ∈ matching_from P i dom
  ↔ (i ≤ k)%nat ∧ ∃ e, dom !! (k - i)%nat = Some e ∧ P e = true.
Proof.
  revert i. induction dom as [|e dom IH]; intros i; simpl.
  - split; [by intros ?%elem_of_nil|by intros (_ & e & ? & _)].
  - assert (Hstep : k ∈ matching_from P (S i) dom
                    ↔ (i < k)%nat
                      ∧ ∃ e', dom !! (k - S i)%nat = Some e' ∧ P e' = true).
    { rewrite IH. split; intros [? ?]; (split; [lia|done]). }
    assert (Hlater : (i < k)%nat →
              (e :: dom) !! (k - i)%nat = dom !! (k - S i)%nat).
    { intros Hik. replace (k - i)%nat with (S (k - S i)) by lia. done. }
    destruct (P e) eqn:HP.
    + rewrite elem_of_cons, Hstep. split.
      * intros [->|[Hik (e' & He' & HP')]].
        -- split; [lia|]. exists e. by rewrite Nat.sub_diag.
        -- split; [lia|]. exists e'. by rewrite Hlater.
      * intros [Hik (e' & He' & HP')].
        destruct (decide (k = i)) as [->|Hne]; [by left|]. right.
        split; [lia|]. exists e'. by rewrite <- Hlater by lia.
    + rewrite Hstep. split.
      * intros [Hik (e' & He' & HP')]. split; [lia|]. exists e'.
        by rewrite Hlater.
      * intros [Hik (e' & He' & HP')].
        destruct (decide (k = i)) as [->|Hne].
        -- rewrite Nat.sub_diag in He'. simpl in He'. congruence.
        -- split; [lia|]. exists e'. by rewrite <- Hlater by lia.
Qed.

Lemma elem_of_querySelectorAll P dom k :
  k ∈ querySelectorAll P dom ↔ ∃ e, dom !! k = Some e ∧ P e = true.
Proof.
  unfold querySelectorAll. rewrite elem_of_matching_from, Nat.sub_0_r.
  split; [by intros [_ ?]|]. intros ?. split; [lia|done].
Qed.

Lemma matching_from_lower P i dom :
  Forall (λ k, (i ≤ k)%nat) (matching_from P i dom).
Proof.
  apply Forall_forall. intros k Hk.
  by apply elem_of_matching_from in Hk as [? _].
Qed.

Lemma NoDup_matching_from P i dom : NoDup (matching_from P i dom).
Proof.
  revert i. induction dom as [|e dom IH]; intros i; simpl;
    [apply NoDup_nil_2|].
  destruct (P e); [|apply IH]. apply NoDup_cons. split; [|apply IH].
  intros Hi. pose proof (matching_from_lower P (S i) dom) as Hlow.
  rewrite Forall_forall in Hlow. specialize (Hlow _ Hi). lia.
Qed.

Lemma head_matching_from_first P i dom k :
  head (matching_from P i dom) = Some k →
  ∀ j e, (i + j < k)%nat → dom !! j = Some e → P e = false.
Proof.
  revert i. induction dom as [|e0 dom IH]; intros i Hhead j e Hj He;
    [done|]. simpl in Hhead.
  destruct (P e0) eqn:HP0.
  - injection Hhead as <-. lia.
  - destruct j as [|j]; simpl in He; [congruence|].
    eapply (IH (S i)); [done| |done]. lia.
Qed.

(** The first match has no match before it. *)
Lemma querySelector_first P dom k :
  querySelector P dom = Some k →
  (∃ e, dom !! k = Some e ∧ P e = true)
  ∧ ∀ j e, (j < k)%nat → dom !! j = Some e → P e = false.
Proof.
  unfold querySelector. intros Hhead. split.
  - apply elem_of_querySelectorAll.
    destruct (querySelectorAll P dom) as [|k' l] eqn:Hl; [done|].
    injection Hhead as ->. by left.
  - intros j e Hj. by apply (head_matching_from_first P 0 dom k).
Qed.

Lemma matching_from_ext P i dom dom' :
  P <$> dom = P <$> dom' → matching_from P i dom = matching_from P i dom'.
Proof.
  revert i dom'. induction dom as [|e dom IH]; intros i [|e' dom'] Hmap;
    try done.
  simpl in *. injection Hmap as HP Hmap. rewrite HP.
  by rewrite (IH (S i) dom' Hmap).
Qed.

Lemma fmap_alter_same {B} (g : Element → B) (f : Element → Element) i dom :
  (∀ e, g (f e) = g e) → g <$> alter f i dom = g <$> dom.
Proof.
  intros Hg. apply list_eq. intros k. rewrite !list_lookup_fmap.
  destruct (decide (k = i)) as [->|Hne].
  - rewrite list_lookup_alter_eq. destruct (dom !! i); simpl; [|done].
    by rewrite Hg.
  - by rewrite list_lookup_alter_ne.
Qed.

Lemma fmap_for_each_same {B} (g : Element → B) (f : Element → Element)
    nodes dom :
  (∀ e, g (f e) = g e) → g <$> for_each f nodes dom = g <$> dom.
Proof.
  intros Hg. unfold for_each. revert dom.
  induction nodes as [|i nodes IH]; intros dom; [done|]. simpl.
  by rewrite IH, fmap_alter_same.
Qed.

(** After [forEach] with an [f] that does nothing the second time, the
    nodes listed have [f] applied and the others are as before. *)
Lemma for_each_lookup (f : Element → Element) nodes dom k :
  (∀ e, f (f e) = f e) →
  for_each f nodes dom !! k
  = if decide (k ∈ nodes) then f <$> dom !! k else dom !! k.
Proof.
  intros Hidem. unfold for_each. revert dom.
  induction nodes as [|i nodes IH]; intros dom.
  - destruct (decide (k ∈ [])) as [Hin|_]; [|done].
    by apply elem_of_nil in Hin.
  - change (foldl (λ dom i, alter f i dom) (alter f i dom) nodes !! k
            = if decide (k ∈ i :: nodes) then f <$> dom !! k else dom !! k).
    rewrite IH.
    destruct (decide (k ∈ i :: nodes)) as [Hin|Hnin];
      destruct (decide (k ∈ nodes)) as [Hin'|Hnin'].
    + destruct (decide (k = i)) as [->|Hne].
      * rewrite list_lookup_alter_eq.
        destruct (dom !! i); simpl; [|done]. by rewrite Hidem.
      * by rewrite list_lookup_alter_ne.
    + apply elem_of_cons in Hin as [->|?]; [|done].
      by rewrite list_lookup_alter_eq.
    + destruct Hnin. by right.
    + rewrite list_lookup_alter_ne; [done|]. intros ->. apply Hnin. by left.
Qed.

(** The same for any [f], when no node is listed twice. *)
Lemma for_each_lookup_once (f : Element → Element) nodes dom k :
  NoDup nodes →
  for_each f nodes dom !! k
  = if decide (k ∈ nodes) then f <$> dom !! k else dom !! k.
Proof.
  intros Hnd. unfold for_each. revert dom.
  induction Hnd as [|i nodes Hi Hnd IH]; intros dom.
  - destruct (decide (k ∈ [])) as [Hin|_]; [|done].
    by apply elem_of_nil in Hin.
  - change (foldl (λ dom i, alter f i dom) (alter f i dom) nodes !! k
            = if decide (k ∈ i :: nodes) then f <$> dom !! k else dom !! k).
    rewrite IH.
    destruct (decide (k ∈ i :: nodes)) as [Hin|Hnin];
      destruct (decide (k ∈ nodes)) as [Hin'|Hnin'].
    + rewrite list_lookup_alter_ne; [done|]. by intros ->.
    + apply elem_of_cons in Hin as [->|?]; [|done].
      by rewrite list_lookup_alter_eq.
    + destruct Hnin. by right.
    + rewrite list_lookup_alter_ne; [done|]. intros ->. apply Hnin. by left.
Qed.

Lemma add_class_twice c e : add_class c (add_class c e) = add_class c e.
Proof.
  unfold add_class; simpl. f_equal. apply set_eq. intros x.
  rewrite !elem_of_union. intuition congruence.
Qed.

Lemma remove_class_twice c e :
  remove_class c (remove_class c e) = remove_class c e.
Proof.
  unfold remove_class; simpl. f_equal. apply set_eq. intros x.
  rewrite !elem_of_difference. intuition congruence.
Qed.

Lemma toggle_class_twice c e : toggle_class c (toggle_class c e) = e.
Proof.
  unfold toggle_class, has_class. destruct e as [d t cs at_]. simpl.
  destruct (bool_decide (c ∈ cs)) eqn:Hc; simpl.
  - apply bool_decide_eq_true in Hc.
    rewrite bool_decide_eq_false_2.
    + unfold add_class; simpl. f_equal. apply set_eq. intros x.
      rewrite elem_of_union, elem_of_difference, elem_of_singleton.
      destruct (decide (x = c)) as [->|]; tauto.
    + rewrite elem_of_difference, elem_of_singleton. intuition congruence.
  - apply bool_decide_eq_false in Hc.
    rewrite bool_decide_eq_true_2.
    + unfold remove_class; simpl. f_equal. apply set_eq. intros x.
      rewrite elem_of_difference, elem_of_union, elem_of_singleton.
      intuition congruence.
    + rewrite elem_of_union, elem_of_singleton. by left.
Qed.

Lemma has_class_toggle_other c c' e :
  c ≠ c' → has_class c (toggle_class c' e) = has_class c e.
Proof.
  intros Hne. unfold toggle_class, has_class at 1 3.
  destruct (has_class c' e); simpl; apply bool_decide_ext.
  - rewrite elem_of_difference, elem_of_singleton. intuition congruence.
  - rewrite elem_of_union, elem_of_singleton. intuition congruence.
Qed.

Lemma has_id_toggle i c e : has_id i (toggle_class c e) = has_id i e.
Proof. unfold toggle_class. by destruct (has_class c e). Qed.

(** *** The menu *)

Import HomeLooks.

Lemma querySelectorAll_toggled c P nodes dom :
  (∀ e, P (toggle_class c e) = P e) →
  querySelectorAll P (for_each (toggle_class c) nodes dom)
  = querySelectorAll P dom.
Proof.
  intros HP. apply matching_from_ext. by apply fmap_for_each_same.
Qed.

Lemma has_class_nav1_toggle e :
  has_class "nav1" (toggle_class "show" e) = has_class "nav1" e.
Proof. by apply has_class_toggle_other. Qed.

(** A click, with the three selections made on the page it finds. *)
Lemma hamburger_click_nodes dom :
  hamburger_click dom
  = for_each (toggle_class "show") (querySelectorAll (has_class "nav1") dom)
      (for_each (toggle_class "show")
         (option_list (querySelector (has_id "overlay") dom))
         (for_each (toggle_class "show")
            (option_list (querySelector (has_id "hamburger") dom)) dom)).
Proof.
  unfold hamburger_click, querySelector.
  rewrite !querySelectorAll_toggled;
    auto using has_id_toggle, has_class_nav1_toggle.
Qed.

Lemma hamburger_click_selects dom :
  querySelector (has_id "hamburger") (hamburger_click dom)
  = querySelector (has_id "hamburger") dom
  ∧ querySelector (has_id "overlay") (hamburger_click dom)
    = querySelector (has_id "overlay") dom
  ∧ querySelectorAll (has_class "nav1") (hamburger_click dom)
    = querySelectorAll (has_class "nav1") dom.
Proof.
  rewrite hamburger_click_nodes. unfold querySelector.
  rewrite !querySelectorAll_toggled;
    auto using has_id_toggle, has_class_nav1_toggle.
Qed.

Lemma NoDup_option_list (o : option nat) : NoDup (option_list o).
Proof. destruct o; simpl; [apply NoDup_singleton|apply NoDup_nil_2]. Qed.

(** A second click takes back the first: every element of the page is as
    it was. *)
Theorem hamburger_click_twice dom :
  hamburger_click (hamburger_click dom) = dom.
Proof.
  destruct (hamburger_click_selects dom) as (Hh & Ho & Hn).
  rewrite (hamburger_click_nodes (hamburger_click dom)), Hh, Ho, Hn.
  rewrite hamburger_click_nodes.
  apply list_eq. intros k.
  rewrite !for_each_lookup_once
    by (apply NoDup_option_list || apply NoDup_matching_from).
  destruct (dom !! k) as [e|]; [|by repeat case_decide]. simpl.
  repeat case_decide; simpl; by rewrite ?toggle_class_twice.
Qed.

Lemma elem_of_option_list_1 (o : option nat) k :
  k ∈ option_list o → o = Some k.
Proof.
  destruct o as [k'|]; simpl.
  - by intros ->%list_elem_of_singleton.
  - by intros ?%elem_of_nil.
Qed.

Lemma has_id_apart e :
  has_id "hamburger" e = true → has_id "overlay" e = true → False.
Proof.
  unfold has_id. intros Hh%bool_decide_eq_true Ho%bool_decide_eq_true.
  congruence.
Qed.

(** On a page whose navigation holds neither the button nor the overlay,
    a click toggles [show] once on the button, on the overlay and on every
    element of the navigation, and leaves every other element alone. *)
Theorem hamburger_click_toggles dom :
  menu_apart dom →
  ∀ k e, dom !! k = Some e →
    hamburger_click dom !! k
    = Some (if decide (k ∈ menu_nodes dom) then toggle_class "show" e
            else e).
Proof.
  intros Hapart k e He. rewrite hamburger_click_nodes.
  rewrite !for_each_lookup_once
    by (apply NoDup_option_list || apply NoDup_matching_from).
  rewrite He. unfold menu_nodes.
  assert (Hh : k ∈ option_list (querySelector (has_id "hamburger") dom) →
               has_id "hamburger" e = true).
  { intros Hk%elem_of_option_list_1.
    apply querySelector_first in Hk as [(e' & He' & Hid) _]. congruence. }
  assert (Ho : k ∈ option_list (querySelector (has_id "overlay") dom) →
               has_id "overlay" e = true).
  { intros Hk%elem_of_option_list_1.
    apply querySelector_first in Hk as [(e' & He' & Hid) _]. congruence. }
  assert (Hn : k ∈ querySelectorAll (has_class "nav1") dom →
               has_id "hamburger" e = false ∧ has_id "overlay" e = false).
  { intros (e' & He' & Hnav)%elem_of_querySelectorAll.
    apply (Hapart k e He). congruence. }
  destruct (decide (k ∈ option_list
                      (querySelector (has_id "hamburger") dom))) as [H1|H1];
    destruct (decide (k ∈ option_list
                        (querySelector (has_id "overlay") dom))) as [H2|H2];
    destruct (decide (k ∈ querySelectorAll (has_class "nav1") dom))
      as [H3|H3]; simpl.
  - destruct (has_id_apart e); auto.
  - destruct (has_id_apart e); auto.
  - destruct (Hn H3) as [Hf _]. rewrite (Hh H1) in Hf. discriminate.
  - rewrite decide_True; [done|]. rewrite !elem_of_app. auto.
  - destruct (Hn H3) as [_ Hf]. rewrite (Ho H2) in Hf. discriminate.
  - rewrite decide_True; [done|]. rewrite !elem_of_app. auto.
  - rewrite decide_True; [done|]. rewrite !elem_of_app. auto.
  - rewrite decide_False; [done|]. rewrite !elem_of_app. tauto.
Qed.

Lemma menu_page_apart : menu_apart menu_page.
Proof.
  intros k e Hk Hnav.
  do 5 (destruct k as [|k];
        [injection Hk as <-; by vm_compute in Hnav |-*|]).
  done.
Qed.

Lemma hamburger_click_opens_menu_page :
  menu_apart menu_page
  ∧ hamburger_click menu_page !! 3%nat
    = Some (mkElement 1 "nav" ({["show"]} ∪ {["nav1"]}) ∅).
Proof.
  split; [exact menu_page_apart|].
  exact (hamburger_click_toggles menu_page menu_page_apart 3
           (mkElement 1 "nav" {["nav1"]} ∅) eq_refl).
Defined.

(** *** The gallery *)

Lemma elem_of_add_class c c' e :
  c ∈ classes (add_class c' e) ↔ c = c' ∨ c ∈ classes e.
Proof. unfold add_class; simpl. by rewrite elem_of_union, elem_of_singleton. Qed.

Lemma elem_of_remove_class c c' e :
  c ∈ classes (remove_class c' e) ↔ c ∈ classes e ∧ c ≠ c'.
Proof.
  unfold remove_class; simpl.
  by rewrite elem_of_difference, elem_of_singleton.
Qed.

Lemma has_class_add_other c c' e :
  c ≠ c' → has_class c (add_class c' e) = has_class c e.
Proof.
  intros Hne. unfold has_class. apply bool_decide_ext.
  rewrite elem_of_add_class. intuition congruence.
Qed.

Lemma has_class_remove_other c c' e :
  c ≠ c' → has_class c (remove_class c' e) = has_class c e.
Proof.
  intros Hne. unfold has_class. apply bool_decide_ext.
  rewrite elem_of_remove_class. intuition congruence.
Qed.

Lemma first_descendant_ext P d i (l l' : list Element) :
  (λ e, (depth e, P e)) <$> l = (λ e, (depth e, P e)) <$> l' →
  first_descendant P d i l = first_descendant P d i l'.
Proof.
  revert i l'. induction l as [|e l IH]; intros i [|e' l'] Heq; try done.
  simpl in *. injection Heq as Hd HP Heq. rewrite Hd, HP.
  by rewrite (IH (S i) l' Heq).
Qed.

Lemma querySelector_in_ext P i dom dom' :
  (λ e, (depth e, P e)) <$> dom = (λ e, (depth e, P e)) <$> dom' →
  querySelector_in P i dom = querySelector_in P i dom'.
Proof.
  intros Heq. unfold querySelector_in.
  assert (Hi : (λ e, (depth e, P e)) <$> dom !! i
               = (λ e, (depth e, P e)) <$> dom' !! i).
  { by rewrite <- !list_lookup_fmap, Heq. }
  assert (Hdrop : (λ e, (depth e, P e)) <$> drop (S i) dom
                  = (λ e, (depth e, P e)) <$> drop (S i) dom').
  { by rewrite !fmap_drop, Heq. }
  destruct (dom !! i) as [e|], (dom' !! i) as [e'|]; simpl in Hi; try done.
  injection Hi as Hd _. rewrite Hd. by apply first_descendant_ext.
Qed.

(** The pages a click goes through, element by element. *)
Lemma marked_lookup g img dom k :
  for_each (add_class "d-none")
    (querySelectorAll (has_class "atd")
       (alter (add_class "img-overlay") img
          (for_each (remove_class "img-overlay") (imgs g) dom)))
    (alter (add_class "img-overlay") img
       (for_each (remove_class "img-overlay") (imgs g) dom)) !! k
  = marked g img k <$> dom !! k.
Proof.
  rewrite for_each_lookup by apply add_class_twice.
  assert (Hk : alter (add_class "img-overlay") img
                 (for_each (remove_class "img-overlay") (imgs g) dom) !! k
               = (λ e, if decide (k = img) then add_class "img-overlay" e
                       else e)
                   <$> ((λ e, if decide (k ∈ imgs g)
                              then remove_class "img-overlay" e else e)
                          <$> dom !! k)).
  { destruct (decide (k = img)) as [->|Hne].
    - rewrite list_lookup_alter_eq.
      rewrite for_each_lookup by apply remove_class_twice.
      destruct (decide (img ∈ imgs g)), (dom !! img); simpl; try done.
    - rewrite list_lookup_alter_ne by done.
      rewrite for_each_lookup by apply remove_class_twice.
      destruct (decide (k ∈ imgs g)), (dom !! k); simpl; try done. }
  rewrite Hk. unfold marked.
  destruct (dom !! k) as [e|] eqn:He; simpl.
  - set (e2 := if decide (k = img) then _ else _).
    destruct (has_class "atd" e2) eqn:Hatd.
    + rewrite decide_True; [done|]. apply elem_of_querySelectorAll.
      exists e2. split; [|done]. by rewrite Hk.
    + rewrite decide_False; [done|].
      intros (e' & He' & Hatd')%elem_of_querySelectorAll.
      rewrite Hk in He'. simpl in He'. injection He' as <-.
      subst e2. congruence.
  - destruct (decide (k ∈ querySelectorAll _ _)); reflexivity.
Qed.

Lemma hidden_and_marked_lookup g img dom k :
  hidden_and_marked g img dom !! k = marked g img k <$> dom !! k.
Proof. apply marked_lookup. Qed.

Lemma hidden_and_marked_same {B} (f : Element → B) g img dom :
  (∀ c e, c ≠ "atd" → f (add_class c e) = f e) →
  (∀ c e, c ≠ "atd" → f (remove_class c e) = f e) →
  f <$> hidden_and_marked g img dom = f <$> dom.
Proof.
  intros Hadd Hrem. unfold hidden_and_marked.
  rewrite fmap_for_each_same by (intros e; by apply Hadd).
  rewrite fmap_alter_same by (intros e; by apply Hadd).
  by rewrite fmap_for_each_same by (intros e; by apply Hrem).
Qed.

Lemma atd_named_add n c e :
  c ≠ "atd" → atd_named n (add_class c e) = atd_named n e.
Proof.
  intros Hc. unfold atd_named. by rewrite has_class_add_other.
Qed.

Lemma atd_named_remove n c e :
  c ≠ "atd" → atd_named n (remove_class c e) = atd_named n e.
Proof.
  intros Hc. unfold atd_named. by rewrite has_class_remove_other.
Qed.

Lemma getAttribute_same a i dom dom' :
  attrs <$> dom = attrs <$> dom' → getAttribute a i dom = getAttribute a i dom'.
Proof.
  intros Heq. unfold getAttribute.
  assert (Hi : attrs <$> dom !! i = attrs <$> dom' !! i)
    by by rewrite <- !list_lookup_fmap, Heq.
  destruct (dom !! i), (dom' !! i); simpl in Hi; try done.
  by injection Hi as ->.
Qed.

(** A click, case by case, with every selection made on the page it
    finds. *)
Lemma click_cases g img dom :
  match querySelector_in is_img img dom with
  | None => click g img dom = Raised dom
  | Some inner =>
      let n := to_text (getAttribute "name" inner dom) in
      if css_plain n then
        match querySelector (atd_named n) dom with
        | None => click g img dom = Raised (hidden_and_marked g img dom)
        | Some atd =>
            match imgsrc g with
            | None =>
                click g img dom
                = Raised (alter (remove_class "d-none") atd
                            (hidden_and_marked g img dom))
            | Some target =>
                click g img dom
                = Done (alter (setAttribute "src"
                                 (to_text (getAttribute "src" inner dom)))
                          target
                          (alter (remove_class "d-none") atd
                             (hidden_and_marked g img dom)))
            end
        end
      else click g img dom = NotPlain
  end.
Proof.
  unfold click. fold is_img. fold (hidden_and_marked g img dom).
  destruct (querySelector_in is_img img dom) as [inner|] eqn:Hinner; [|done].
  simpl. destruct (css_plain _) eqn:Hplain; [|done].
  assert (Hsel : ∀ n, querySelector (atd_named n) (hidden_and_marked g img dom)
                      = querySelector (atd_named n) dom).
  { intros n. unfold querySelector. f_equal. apply matching_from_ext.
    apply hidden_and_marked_same;
      auto using atd_named_add, atd_named_remove. }
  rewrite Hsel.
  destruct (querySelector _ dom) as [atd|]; [|done].
  destruct (imgsrc g) as [target|]; [|done].
  set (dom4 := alter _ atd _).
  assert (Hskel : (λ e, (depth e, is_img e)) <$> dom4
                  = (λ e, (depth e, is_img e)) <$> dom).
  { subst dom4. rewrite fmap_alter_same by done.
    by apply hidden_and_marked_same. }
  assert (Hattrs : attrs <$> dom4 = attrs <$> dom).
  { subst dom4. rewrite fmap_alter_same by done.
    by apply hidden_and_marked_same. }
  rewrite (querySelector_in_ext _ _ _ _ Hskel), Hinner.
  by rewrite (getAttribute_same _ _ _ _ Hattrs).
Qed.

Lemma lookup_alter_at (f : Element → Element) i dom k :
  alter f i dom !! k = (λ e, if decide (k = i) then f e else e) <$> dom !! k.
Proof.
  destruct (decide (k = i)) as [->|Hne].
  - rewrite list_lookup_alter_eq. by destruct (dom !! i).
  - rewrite list_lookup_alter_ne by done. by destruct (dom !! k).
Qed.

(** Where a click that found the image of its thumbnail, with a plain
    name, ends: done when it found the panel and the large image, raising
    otherwise; and the page it leaves, element by element. *)
Lemma click_outcome g img dom inner :
  querySelector_in is_img img dom = Some inner →
  css_plain (to_text (getAttribute "name" inner dom)) = true →
  ∃ dom',
    click g img dom
    = match querySelector (atd_named (to_text (getAttribute "name" inner dom)))
              dom ≫= (λ _, imgsrc g) with
      | Some _ => Done dom'
      | None => Raised dom'
      end
    ∧ length dom' = length dom
    ∧ ∀ k, dom' !! k
           = finished g img
               (querySelector
                  (atd_named (to_text (getAttribute "name" inner dom))) dom)
               (querySelector
                  (atd_named (to_text (getAttribute "name" inner dom))) dom
                ≫= (λ _, imgsrc g))
               (to_text (getAttribute "src" inner dom)) k
             <$> dom !! k.
Proof.
  intros Hinner Hplain. pose proof (click_cases g img dom) as Hcases.
  rewrite Hinner in Hcases. simpl in Hcases. rewrite Hplain in Hcases.
  assert (Hlen : length (hidden_and_marked g img dom) = length dom).
  { rewrite <- (length_fmap (λ _, ()) (hidden_and_marked g img dom)).
    rewrite hidden_and_marked_same by done. by rewrite length_fmap. }
  destruct (querySelector _ dom) as [atd|]; simpl.
  - destruct (imgsrc g) as [target|]; simpl;
      eexists; (split; [exact Hcases|]);
      (split; [by rewrite ?length_alter|]); intros k; unfold finished;
      rewrite ?lookup_alter_at, hidden_and_marked_lookup;
      destruct (dom !! k) as [e|]; simpl; try done;
      repeat case_decide; simplify_eq; done.
  - eexists. split; [exact Hcases|]. split; [done|]. intros k.
    unfold finished. rewrite hidden_and_marked_lookup.
    destruct (dom !! k) as [e|]; simpl; [|done].
    repeat case_decide; simplify_eq; done.
Qed.

Lemma click_followed g img dom dom' :
  page_after (click g img dom) = Some dom' →
  (querySelector_in is_img img dom = None ∧ dom' = dom)
  ∨ ∃ inner atd,
      querySelector_in is_img img dom = Some inner
      ∧ css_plain (to_text (getAttribute "name" inner dom)) = true
      ∧ atd = querySelector
                (atd_named (to_text (getAttribute "name" inner dom))) dom
      ∧ click g img dom
        = match atd ≫= (λ _, imgsrc g) with
          | Some _ => Done dom'
          | None => Raised dom'
          end
      ∧ length dom' = length dom
      ∧ ∀ k, dom' !! k
             = finished g img atd (atd ≫= (λ _, imgsrc g))
                 (to_text (getAttribute "src" inner dom)) k
               <$> dom !! k.
Proof.
  intros Hafter. pose proof (click_cases g img dom) as Hcases.
  destruct (querySelector_in is_img img dom) as [inner|] eqn:Hinner.
  - right. simpl in Hcases.
    destruct (css_plain _) eqn:Hplain;
      [|rewrite Hcases in Hafter; discriminate].
    destruct (click_outcome g img dom inner Hinner Hplain)
      as (dom'' & Hclick & Hlen & Hlook).
    assert (dom'' = dom') as ->.
    { rewrite Hclick in Hafter.
      destruct (_ ≫= _); simpl in Hafter; congruence. }
    exists inner, (querySelector
                     (atd_named (to_text (getAttribute "name" inner dom)))
                     dom).
    by split_and!.
  - left. rewrite Hcases in Hafter. simpl in Hafter. split; congruence.
Qed.

(** Membership in a class list after [add] and [remove]. *)
Ltac class_facts :=
  repeat (rewrite elem_of_difference || rewrite elem_of_union
          || rewrite elem_of_singleton).

Lemma overlay_finished g img atd target v j e :
  j ∈ imgs g →
  "img-overlay" ∈ classes (finished g img atd target v j e) ↔ j = img.
Proof.
  intros Hj. unfold finished, marked.
  rewrite (decide_True (P := j ∈ imgs g)) by done.
  repeat case_decide; try destruct (has_class "atd" _); simpl;
    class_facts; intuition congruence.
Qed.

Lemma has_class_atd_marked g img k e :
  has_class "atd" (marked g img k e) = has_class "atd" e
  ∧ (has_class "atd" e = true → "d-none" ∈ classes (marked g img k e)).
Proof.
  unfold marked. set (e2 := if decide (k = img) then _ else _).
  assert (He2 : has_class "atd" e2 = has_class "atd" e).
  { subst e2. repeat case_decide;
      by rewrite ?has_class_add_other, ?has_class_remove_other by done. }
  destruct (has_class "atd" e2) eqn:Hatd.
  - rewrite has_class_add_other by done. split; [congruence|].
    intros _. apply elem_of_add_class. by left.
  - split; [congruence|]. intros Htrue. congruence.
Qed.

Lemma has_class_atd_finished g img atd target v k e :
  has_class "atd" (finished g img atd target v k e) = has_class "atd" e.
Proof.
  unfold finished.
  assert (Hset : ∀ e0, has_class "atd" (setAttribute "src" v e0)
                       = has_class "atd" e0) by done.
  repeat case_decide;
    rewrite ?Hset, ?has_class_remove_other by done;
    apply has_class_atd_marked.
Qed.

Lemma dnone_finished g img atd target v k e :
  has_class "atd" e = true →
  "d-none" ∈ classes (finished g img atd target v k e) ↔ atd ≠ Some k.
Proof.
  intros Hatd.
  pose proof (proj2 (has_class_atd_marked g img k e) Hatd) as Hnone.
  unfold finished.
  assert (Hset : ∀ e0, classes (setAttribute "src" v e0) = classes e0)
    by done.
  repeat case_decide; rewrite ?Hset, ?elem_of_remove_class;
    intuition congruence.
Qed.

Lemma same_but_marks_finished g img atd target v k e :
  same_but_marks_el e (finished g img atd target v k e).
Proof.
  unfold finished, marked, same_but_marks_el.
  repeat case_decide; try destruct (has_class "atd" _); simpl;
    (split_and!; [done|done| |]);
    try (intros c Hc1 Hc2; class_facts; intuition congruence);
    intros a Ha; rewrite ?lookup_insert_ne by done; done.
Qed.

Lemma attrs_finished g img atd target v k e :
  attrs (finished g img atd target v k e)
  = if decide (target = Some k) then <["src" := v]> (attrs e) else attrs e.
Proof.
  unfold finished, marked.
  repeat case_decide; try destruct (has_class "atd" _); done.
Qed.

(** A click that is followed to its end leaves every element in its
    place with its depth, its tag, its classes but [img-overlay] and
    [d-none] and its attributes but [src]; and [src] itself it changes on
    the large image alone. *)
Theorem gallery_click_frame g img dom dom' :
  page_after (click g img dom) = Some dom' →
  same_but_marks dom dom'
  ∧ ∀ k e e', dom !! k = Some e → dom' !! k = Some e' →
              imgsrc g ≠ Some k → attrs e' = attrs e.
Proof.
  intros [[_ ->]|(inner & atd & Hinner & Hplain & Hatd & Hclick & Hlen
                  & Hlook)]%click_followed.
  - split; [split; [done|]|].
    + intros k e e' He He'. assert (e' = e) as -> by congruence.
      by split_and!.
    + intros k e e' He He' _. congruence.
  - split; [split; [done|]|].
    + intros k e e' He He'. rewrite Hlook, He in He'. injection He' as <-.
      apply same_but_marks_finished.
    + intros k e e' He He' Hk. rewrite Hlook, He in He'. injection He' as <-.
      rewrite attrs_finished. case_decide as Ht; [|done].
      destruct atd; simpl in Ht; congruence.
Qed.

Lemma gallery_click_frame_page :
  ∃ dom',
    page_after (click (load gallery_page) 3 gallery_page) = Some dom'
    ∧ same_but_marks gallery_page dom'.
Proof.
  destruct (page_after (click (load gallery_page) 3 gallery_page))
    as [dom'|] eqn:Hafter; [|by vm_compute in Hafter].
  exists dom'. split; [done|].
  exact (proj1 (gallery_click_frame _ _ _ _ Hafter)).
Defined.

(** After a click on a thumbnail that has an image (and a plain name),
    the clicked thumbnail is the one thumbnail that is marked, whether the
    click got to its end or raised on the way. *)
Theorem gallery_click_marks g img dom dom' :
  is_Some (querySelector_in is_img img dom) →
  page_after (click g img dom) = Some dom' →
  marked_alone g img dom'.
Proof.
  intros [inner Hinner]
    [[Hnone _]|(inner' & atd & Hinner' & Hplain & Hatd & Hclick & Hlen
                & Hlook)]%click_followed;
    [congruence|].
  intros j e' Hj He'. rewrite Hlook in He'.
  destruct (dom !! j) as [e|]; [|done]. injection He' as <-.
  by apply overlay_finished.
Qed.

Lemma gallery_click_marks_page :
  is_Some (querySelector_in is_img 3 gallery_page)
  ∧ ∃ dom',
      page_after (click (load gallery_page) 3 gallery_page) = Some dom'
      ∧ marked_alone (load gallery_page) 3 dom'.
Proof.
  assert (Hinner : is_Some (querySelector_in is_img 3 gallery_page))
    by (by exists 4%nat).
  split; [exact Hinner|].
  destruct (page_after (click (load gallery_page) 3 gallery_page))
    as [dom'|] eqn:Hafter; [|by vm_compute in Hafter].
  exists dom'. split; [done|].
  exact (gallery_click_marks _ _ _ _ Hinner Hafter).
Defined.

(** A click that is done has shown one panel, the first whose [name] is
    that of the image of the thumbnail, and hidden every other; and the
    large image has the [src] of that image. *)
Theorem gallery_click_done g img dom dom' :
  click g img dom = Done dom' →
  ∃ inner atd target,
    querySelector_in is_img img dom = Some inner
    ∧ querySelector (atd_named (to_text (getAttribute "name" inner dom))) dom
      = Some atd
    ∧ imgsrc g = Some target
    ∧ shown_alone atd dom'
    ∧ ∀ e', dom' !! target = Some e' →
            attrs e' !! "src"
            = Some (to_text (getAttribute "src" inner dom)).
Proof.
  intros Hdone.
  assert (Hafter : page_after (click g img dom) = Some dom')
    by by rewrite Hdone.
  apply click_followed in Hafter
    as [[Hnone _]|(inner & atd0 & Hinner & Hplain & -> & Hclick & Hlen
                   & Hlook)].
  { pose proof (click_cases g img dom) as Hcases.
    rewrite Hnone in Hcases. congruence. }
  rewrite Hdone in Hclick.
  destruct (querySelector _ dom) as [atd|] eqn:Hatd; [|done].
  simpl in *. destruct (imgsrc g) as [target|] eqn:Htarget; [|done].
  exists inner, atd, target. split_and!; try done.
  - intros k e' He' Hpanel. rewrite Hlook in He'.
    destruct (dom !! k) as [e|]; [|done]. injection He' as <-.
    rewrite has_class_atd_finished in Hpanel.
    rewrite (dnone_finished _ _ _ _ _ _ _ Hpanel). split; congruence.
  - intros e' He'. rewrite Hlook in He'.
    destruct (dom !! target) as [e|]; [|done]. injection He' as <-.
    rewrite attrs_finished, decide_True by done. apply lookup_insert_eq.
Qed.

Lemma gallery_click_done_page :
  ∃ dom',
    click (load gallery_page) 3 gallery_page = Done dom'
    ∧ shown_alone 6 dom'.
Proof.
  destruct (click (load gallery_page) 3 gallery_page) as [dom'| |]
    eqn:Hclick; [|by vm_compute in Hclick..].
  exists dom'. split; [done|].
  destruct (gallery_click_done _ _ _ _ Hclick)
    as (inner & atd & target & Hinner & Hatd & _ & Hshown & _).
  assert (inner = 4%nat) as -> by (vm_compute in Hinner; congruence).
  assert (atd = 6%nat) as -> by (vm_compute in Hatd; congruence).
  exact Hshown.
Defined.

(** A thumbnail without an image raises at once and the page stays as it
    is. A thumbnail whose image names no panel raises too, but only after
    the mark has moved and every panel has been hidden: it leaves no panel
    to be seen. *)
Theorem gallery_click_raises g img dom :
  (querySelector_in is_img img dom = None → click g img dom = Raised dom)
  ∧ (∀ inner,
       querySelector_in is_img img dom = Some inner →
       css_plain (to_text (getAttribute "name" inner dom)) = true →
       querySelector (atd_named (to_text (getAttribute "name" inner dom))) dom
       = None →
       ∃ dom', click g img dom = Raised dom'
               ∧ all_hidden dom'
               ∧ marked_alone g img dom').
Proof.
  split.
  - intros Hnone. pose proof (click_cases g img dom) as Hcases.
    by rewrite Hnone in Hcases.
  - intros inner Hinner Hplain Hatd.
    destruct (click_outcome g img dom inner Hinner Hplain)
      as (dom' & Hclick & _ & Hlook).
    rewrite Hatd in Hclick, Hlook. simpl in *.
    exists dom'. split_and!; [done| |].
    + intros k e' He' Hpanel. rewrite Hlook in He'.
      destruct (dom !! k) as [e|]; [|done]. injection He' as <-.
      rewrite has_class_atd_finished in Hpanel.
      by apply (dnone_finished _ _ _ _ _ _ _ Hpanel).
    + intros j e' Hj He'. rewrite Hlook in He'.
      destruct (dom !! j) as [e|]; [|done]. injection He' as <-.
      by apply overlay_finished.
Qed.

Lemma gallery_click_raises_lonely_page :
  ∃ dom', click (load lonely_page) 1 lonely_page = Raised dom'
          ∧ all_hidden dom'
          ∧ marked_alone (load lonely_page) 1 dom'.
Proof.
  exact (proj2 (gallery_click_raises (load lonely_page) 1 lonely_page)
               2%nat eq_refl eq_refl eq_refl).
Defined.

End HomePageFacts.
